(** * LauncherModel: the application-launcher list model (src/launchermodel.cpp)

    A shallow embedding of [LauncherModel] and of the Qt text operations it
    calls, followed by the properties of the store, the entry filter, the
    search overlay, the directory scan and the launcher.

    Conventions of the embedding.
    - [QString] and [QByteArray] are [string], the text in UTF-8; white
      space and the case mapping of [QByteArray::toUpper] and of
      [QVariant::toBool] are those of the ASCII range (desktop-entry keys,
      environment names and the field codes of [Exec] are ASCII). Comparison
      without regard to case, which the search makes on names in any script,
      goes through the case folding of the Unicode tables of Qt, a parameter
      ([CaseFolding]).
    - A C++ [int] is a [Z] in the 32-bit range; [findById] and [indexOf]
      keep their [-1], and the sums and products of [move] wrap around.
    - A [LauncherItem *] is the address of the object together with the
      fields it points to: the fields are written once, in [addApp], and
      never again, and [indexOf] compares addresses only.
    - Signals, debug output, D-Bus calls and process starts are appended to
      the [effects] trace of the model, in program order. *)

From Stdlib Require Import ZArith Ascii String.
From stdpp Require Import base option list sorting strings gmap.

Local Open Scope Z_scope.

(** ** Qt text primitives *)

Inductive CaseSensitivity := CaseInsensitive | CaseSensitive.

Module QChar.

(** [QChar::isSpace] on the ASCII range: tab, line feed, vertical tab,
    form feed, carriage return and space. *)
Definition isSpace (c : ascii) : bool :=
  let n := N_of_ascii c in
  ((9 <=? n) && (n <=? 13))%N || (n =? 32)%N.

Definition toLower (c : ascii) : ascii :=
  let n := N_of_ascii c in
  if ((65 <=? n) && (n <=? 90))%N then ascii_of_N (n + 32) else c.

Definition toUpper (c : ascii) : ascii :=
  let n := N_of_ascii c in
  if ((97 <=? n) && (n <=? 122))%N then ascii_of_N (n - 32) else c.

End QChar.

(** What the Unicode tables of the Qt library answer about letter case:
    [caseFolded s] is [s.toCaseFolded()], the text with every character
    replaced by its case-folded form. Two texts are equal without regard to
    case when their folded forms are equal. *)
Record CaseFolding := mkCaseFolding {
  caseFolded : string -> string
}.

Module QString.

Fixpoint map (f : ascii -> ascii) (s : string) : string :=
  match s with
  | EmptyString => EmptyString
  | String c s' => String (f c) (map f s')
  end.

Definition toLower : string -> string := map QChar.toLower.
Definition toUpper : string -> string := map QChar.toUpper.

Definition isEmpty (s : string) : bool :=
  match s with EmptyString => true | _ => false end.

(** [s.startsWith(key)], case sensitive. *)
Fixpoint startsWith (s key : string) : bool :=
  match key, s with
  | EmptyString, _ => true
  | String _ _, EmptyString => false
  | String k key', String c s' => Ascii.eqb c k && startsWith s' key'
  end.

(** [key] stands at some position of [s] (the search of [indexOf], case
    sensitive). *)
Fixpoint occurs (s key : string) : bool :=
  startsWith s key ||
  match s with
  | EmptyString => false
  | String _ s' => occurs s' key
  end.

(** [s.contains(key, cs)]: the empty key is found in every text; under
    [Qt::CaseInsensitive] the characters are compared in their case-folded
    form, position by position, which finds the folded key in the folded
    text. *)
Definition contains (u : CaseFolding) (cs : CaseSensitivity) (s key : string) : bool :=
  match cs with
  | CaseSensitive => occurs s key
  | CaseInsensitive =>
      isEmpty key || occurs (caseFolded u s) (caseFolded u key)
  end.

(** [s.split(sep)] with the default [Qt::KeepEmptyParts]: the fields
    between the separators, empty ones included; a string without a
    separator is a single field. *)
Fixpoint split (sep : ascii) (s : string) : list string :=
  match s with
  | EmptyString => [EmptyString]
  | String c s' =>
      if Ascii.eqb c sep then EmptyString :: split sep s'
      else match split sep s' with
           | [] => [String c EmptyString]
           | w :: ws => String c w :: ws
           end
  end.

(** [s.remove(QRegularExpression(%.))]: every match of a percent sign
    followed by one character other than a line feed is dropped, scanning
    left to right without rescanning. *)
Fixpoint remove_percent_any (s : string) : string :=
  match s with
  | EmptyString => EmptyString
  | String c s' =>
      if Ascii.eqb c "%" then
        match s' with
        | EmptyString => String c EmptyString
        | String d s'' =>
            if Ascii.eqb d "010" then String c (remove_percent_any s')
            else remove_percent_any s''
        end
      else String c (remove_percent_any s')
  end.

(** [s.remove(QRegularExpression(^DQUOTE))]: a double quote (character
    34) at the start of the string. *)
Definition remove_leading_quote (s : string) : string :=
  match s with
  | String c s' => if Ascii.eqb c "034" then s' else s
  | EmptyString => EmptyString
  end.

(** [s.replace(c, QString())]: every occurrence of the character is
    dropped. *)
Fixpoint remove_char (x : ascii) (s : string) : string :=
  match s with
  | EmptyString => EmptyString
  | String c s' =>
      if Ascii.eqb c x then remove_char x s' else String c (remove_char x s')
  end.

(** [s.simplified()]: white space stripped at both ends, every inner run
    of white space replaced by one space. *)
Inductive scan := AtStart | InWord | AfterSpace.

Fixpoint simplified_from (q : scan) (s : string) : string :=
  match s with
  | EmptyString => EmptyString
  | String c s' =>
      if QChar.isSpace c then
        simplified_from (match q with AtStart => AtStart | _ => AfterSpace end) s'
      else
        match q with
        | AfterSpace => String " " (String c (simplified_from InWord s'))
        | _ => String c (simplified_from InWord s')
        end
  end.

Definition simplified (s : string) : string := simplified_from AtStart s.

End QString.

(** [QStringList::contains(str)], case sensitive. *)
Definition QStringList_contains (l : list string) (s : string) : bool :=
  existsb (String.eqb s) l.

(** A [QVariant] as the entry reader hands it out: a text value, or the
    invalid variant returned for a key that is absent. *)
Inductive QVariant := Invalid | QVString (s : string).

Module QVar.

Definition toString (v : QVariant) : string :=
  match v with
  | Invalid => EmptyString
  | QVString s => s
  end.

(** [QVariant::toBool] of a text: false for the empty string, [0] and
    [false] (in any case), true for every other text. *)
Definition toBool (v : QVariant) : bool :=
  match v with
  | Invalid => false
  | QVString s =>
      let str := QString.toLower s in
      negb (String.eqb str "0" || String.eqb str "false" || QString.isEmpty str)
  end.

End QVar.

(** ** Data model *)

(** Modelled from the spec: [DesktopProperties] (desktopproperties.h is not
    among the sources) is the key/value content of one group of an entry
    file, a key/value text file; it answers key lookups by name, and an
    absent key yields the invalid variant, whose text is empty. *)
Module DesktopProperties.

Abbreviation t := (gmap string string).

Definition contains (d : t) (key : string) : bool :=
  bool_decide (is_Some (d !! key)).

Definition value (d : t) (key : string) : QVariant :=
  match d !! key with
  | Some s => QVString s
  | None => Invalid
  end.

End DesktopProperties.

(** [LauncherItem] behind its pointer: [addr] is the pointer value. *)
Record LauncherItem := mkItem {
  addr : nat;
  id : string;
  name : string;
  genericName : string;
  comment : string;
  iconName : string;
  args : list string
}.

Inductive Mode := NormalMode | SearchMode.

Record QProcess := mkProcess {
  standardInputFile : string;
  forwardedChannels : bool;
  program : string;
  arguments : list string
}.

(** The signals of the model and of [QAbstractItemModel] that the code
    raises. *)
Inductive Signal :=
| rowsAboutToBeInserted (first last : Z)
| rowsInserted (first last : Z)
| rowsAboutToBeRemoved (first last : Z)
| rowsRemoved (first last : Z)
| modelAboutToBeReset
| modelReset
| layoutChanged
| countChanged
| refreshed_signal
| applicationLaunched
| applicationRemoved (item : LauncherItem).

Inductive Effect :=
| Emit (s : Signal)
| QDebug (prefix text : string)
| DeleteLater (item : LauncherItem)
| DBusAsyncCall (method key : string)
| StartDetached (p : QProcess)
| SettingsSetValue (key : string) (items : list LauncherItem).

Record LauncherModel := mkModel {
  m_items : list LauncherItem;
  m_searchItems : list LauncherItem;
  m_mode : Mode;
  next_addr : nat;
  effects : list Effect
}.

(** What the process environment and the file system answer. *)
Record Env := mkEnv {
  XDG_CURRENT_DESKTOP : string;
  locale_name : string;
  entry_file : string -> gmap string string
}.

Definition with_items (m : LauncherModel) (l : list LauncherItem) : LauncherModel :=
  mkModel l (m_searchItems m) (m_mode m) (next_addr m) (effects m).

Definition with_effect (m : LauncherModel) (e : Effect) : LauncherModel :=
  mkModel (m_items m) (m_searchItems m) (m_mode m) (next_addr m) (effects m ++ [e]).

(** [emit]: the constructor connects [rowsInserted], [rowsRemoved],
    [modelReset] and [layoutChanged] to [countChanged]. *)
Definition raises_countChanged (s : Signal) : bool :=
  match s with
  | rowsInserted _ _ | rowsRemoved _ _ | modelReset | layoutChanged => true
  | _ => false
  end.

Definition emit (s : Signal) (m : LauncherModel) : LauncherModel :=
  let m' := with_effect m (Emit s) in
  if raises_countChanged s then with_effect m' (Emit countChanged) else m'.

(** The model as the constructor leaves it, before the first scan. *)
Definition LauncherModel_new : LauncherModel :=
  mkModel [] [] NormalMode 0 [].

(** ** Operations *)

Definition detectDesktopEnvironment (e : Env) : string :=
  let desktop := XDG_CURRENT_DESKTOP e in
  if negb (QString.isEmpty desktop) then QString.toUpper desktop
  else "UNKNOWN".

(** [QList::at(i)]: defined inside the list only. *)
Definition QList_at {A} (l : list A) (i : Z) : option A :=
  if 0 <=? i then l !! Z.to_nat i else None.

Definition rowCount (m : LauncherModel) : Z :=
  match m_mode m with
  | SearchMode => Z.of_nat (length (m_searchItems m))
  | NormalMode => Z.of_nat (length (m_items m))
  end.

Inductive Role :=
| AppIdRole | ApplicationRole | NameRole | GenericNameRole | CommentRole
| IconNameRole | CategoriesRole | FilterInfoRole | PinnedRole | PinnedIndexRole.

Record QModelIndex := mkIndex { isValid : bool; row : Z }.

Definition role_data (item : LauncherItem) (role : Role) : QVariant :=
  match role with
  | AppIdRole => QVString (id item)
  | NameRole => QVString (name item)
  | IconNameRole => QVString (iconName item)
  | FilterInfoRole =>
      QVString (name item +:+ " " +:+ genericName item +:+ " " +:+ comment item)
  | _ => Invalid
  end.

(** The pointers handed to [deleteLater] so far: the objects behind them
    are deleted once control is back in the event loop. *)
Definition deleted_pointer (e : Effect) : option nat :=
  match e with
  | DeleteLater item => Some (addr item)
  | _ => None
  end.

Definition deferred (m : LauncherModel) : list nat :=
  omap deleted_pointer (effects m).

Definition awaits_deletion (m : LauncherModel) (item : LauncherItem) : bool :=
  bool_decide (addr item ∈ deferred m).

(** [data]: [None] is a read that is not defined, [at] outside the list or
    the fields of an item that was handed to [deleteLater] (the overlay
    keeps such pointers). *)
Definition data (m : LauncherModel) (index : QModelIndex) (role : Role) : option QVariant :=
  if negb (isValid index) then Some Invalid
  else
    match match m_mode m with
          | NormalMode => QList_at (m_items m) (row index)
          | SearchMode => QList_at (m_searchItems m) (row index)
          end with
    | Some item =>
        if awaits_deletion m item then None else Some (role_data item role)
    | None => None
    end.

(** The rows of the view: the list [rowCount] measures and [data] reads. *)
Definition rows (m : LauncherModel) : list LauncherItem :=
  match m_mode m with
  | SearchMode => m_searchItems m
  | NormalMode => m_items m
  end.

Fixpoint findById_from (i : Z) (items : list LauncherItem) (key : string) : Z :=
  match items with
  | [] => -1
  | it :: rest => if String.eqb (id it) key then i else findById_from (i + 1) rest key
  end.

Definition findById (m : LauncherModel) (key : string) : Z :=
  findById_from 0 (m_items m) key.

(** [QList::indexOf] on a list of pointers. *)
Fixpoint indexOf_from (i : Z) (items : list LauncherItem) (item : LauncherItem) : Z :=
  match items with
  | [] => -1
  | it :: rest => if Nat.eqb (addr it) (addr item) then i else indexOf_from (i + 1) rest item
  end.

Definition indexOf (items : list LauncherItem) (item : LauncherItem) : Z :=
  indexOf_from 0 items item.

Definition search_match (u : CaseFolding) (key : string) (item : LauncherItem) : bool :=
  QString.contains u CaseInsensitive (name item) key ||
  QString.contains u CaseInsensitive (id item) key.

Definition search (u : CaseFolding) (key : string) (m : LauncherModel) : LauncherModel :=
  let mode := if QString.isEmpty key then NormalMode else SearchMode in
  let found :=
    foldl (fun acc item => if search_match u key item then acc ++ [item] else acc)
          [] (m_items m) in
  emit layoutChanged (mkModel (m_items m) found mode (next_addr m) (effects m)).

Definition sendToDock (key : string) (m : LauncherModel) : LauncherModel :=
  let index := findById m key in
  if negb (index =? -1) then with_effect m (DBusAsyncCall "add" key) else m.

Definition removeFromDock (desktop : string) (m : LauncherModel) : LauncherModel :=
  let index := findById m desktop in
  if negb (index =? -1) then with_effect m (DBusAsyncCall "remove" desktop) else m.

(** The calls [refresh] posts to the thread of the model with
    [QMetaObject::invokeMethod]. *)
Inductive Invocation :=
| InvokeAddApp (fileName : string)
| InvokeRemoveApp (item : LauncherItem)
| InvokeRefreshed.

(** What the scan of the applications directory meets: the paths the
    directory iterator yields, in its order, and whether each still exists
    when it is tested. *)
Record Disk := mkDisk {
  dir_iterator : list string;
  file_exists : string -> bool
}.

Definition scan_entries (d : Disk) : list string :=
  foldl (fun allEntries fileName =>
           if negb (file_exists d fileName) then allEntries
           else allEntries ++ [fileName])
        [] (dir_iterator d).

(** [refresh], run on a worker thread: the store is read as it stands when
    the scan runs (one state for both loops), and the result is the queue of
    posted calls, in posting order. *)
Definition refresh (d : Disk) (manager : LauncherModel) : list Invocation :=
  let addedEntries :=
    foldl (fun acc item => acc ++ [id item]) [] (m_items manager) in
  let allEntries := scan_entries d in
  let q1 :=
    foldl (fun q fileName =>
             if negb (QStringList_contains addedEntries fileName)
             then q ++ [InvokeAddApp fileName] else q)
          [] allEntries in
  let q2 :=
    foldl (fun q item =>
             if negb (QStringList_contains allEntries (id item))
             then q ++ [InvokeRemoveApp item] else q)
          q1 (m_items manager) in
  q2 ++ [InvokeRefreshed].

(** [QList::move(from, to)]: defined for indices inside the list only
    ([Q_ASSERT_X] otherwise); the element taken at [from] lands at [to]. *)
Definition QList_move {A} (from to : Z) (l : list A) : option (list A) :=
  if (0 <=? from) && (from <? Z.of_nat (length l)) &&
     (0 <=? to) && (to <? Z.of_nat (length l))
  then
    match l !! Z.to_nat from with
    | Some x =>
        let l' := delete (Z.to_nat from) l in
        Some (take (Z.to_nat to) l' ++ x :: drop (Z.to_nat to) l')
    | None => None
    end
  else None.

(** The arithmetic of a C++ [int] as the program's machine code carries it
    out: 32 bits in two's complement, a sum or product outside the range
    wrapping around. *)
Definition int_wrap (z : Z) : Z := (z + 2 ^ 31) mod 2 ^ 32 - 2 ^ 31.

Definition int_add (a b : Z) : Z := int_wrap (a + b).

Definition int_mul (a b : Z) : Z := int_wrap (a * b).

(** [move]: [None] is the failed assertion of [QList::move] (an index
    that, after the wrap-around of the arithmetic, is out of range). *)
Definition move (from to page pageCount : Z) (m : LauncherModel) : option LauncherModel :=
  if from =? to then Some m
  else
    let newFrom := int_add from (int_mul page pageCount) in
    let newTo := int_add to (int_mul page pageCount) in
    match QList_move newFrom newTo (m_items m) with
    | Some l => Some (with_items m l)
    | None => None
    end.

Definition save (m : LauncherModel) : LauncherModel :=
  with_effect m (SettingsSetValue "list" (m_items m)).

(** [launch]: the outcome of [startDetached] is the answer of the system,
    a parameter here. [None] is [takeFirst] on an empty argument list (its
    assertion fails). *)
Definition launch (startDetached : QProcess -> bool) (path : string)
    (m : LauncherModel) : option (bool * LauncherModel) :=
  let index := findById m path in
  if negb (index =? -1) then
    match QList_at (m_items m) index with
    | Some item =>
        match args item with
        | cmd :: args' =>
            let p := mkProcess "/dev/null" true cmd args' in
            let p :=
              if String.eqb cmd "cutefish-screenshot"
              then mkProcess (standardInputFile p) (forwardedChannels p)
                             (program p) ["-d"; "200"]
              else p in
            let m := emit applicationLaunched m in
            Some (startDetached p, with_effect m (StartDetached p))
        | [] => None
        end
    | None => None
    end
  else Some (false, m).

(** The launch arguments [addApp] derives from the [Exec] value. *)
Definition exec_args (appExec : string) : list string :=
  let appExec := QString.remove_percent_any appExec in
  let appExec := QString.remove_leading_quote appExec in
  let appExec := QString.remove_char "034" appExec in
  let appExec := QString.simplified appExec in
  QString.split " " appExec.

Definition addApp (e : Env) (fileName : string) (m : LauncherModel) : LauncherModel :=
  if negb (findById m fileName =? -1) then m
  else
    let desktop := entry_file e fileName in
    if DesktopProperties.contains desktop "Terminal" &&
       QVar.toBool (DesktopProperties.value desktop "Terminal")
    then m
    else if DesktopProperties.contains desktop "OnlyShowIn" &&
            negb (QStringList_contains
                    (QString.split ";"
                       (QVar.toString (DesktopProperties.value desktop "OnlyShowIn")))
                    (detectDesktopEnvironment e))
    then m
    else if QVar.toBool (DesktopProperties.value desktop "NoDisplay") ||
            QVar.toBool (DesktopProperties.value desktop "Hidden")
    then m
    else
      let appName :=
        QVar.toString
          (DesktopProperties.value desktop ("Name[" +:+ locale_name e +:+ "]")) in
      let appExec := QVar.toString (DesktopProperties.value desktop "Exec") in
      let appName :=
        if QString.isEmpty appName
        then QVar.toString (DesktopProperties.value desktop "Name")
        else appName in
      let item :=
        mkItem (next_addr m) fileName appName
               (QVar.toString (DesktopProperties.value desktop "Comment"))
               (QVar.toString (DesktopProperties.value desktop "Comment"))
               (QVar.toString (DesktopProperties.value desktop "Icon"))
               (exec_args appExec) in
      let count := Z.of_nat (length (m_items m)) in
      let m := emit (rowsAboutToBeInserted count count) m in
      let m := mkModel (m_items m ++ [item]) (m_searchItems m) (m_mode m)
                       (S (next_addr m)) (effects m) in
      let m := with_effect m (QDebug "added: " (name item)) in
      emit (rowsInserted count count) m.

Definition removeApp (item : LauncherItem) (m : LauncherModel) : LauncherModel :=
  let index := indexOf (m_items m) item in
  if index <? 0 then m
  else
    let m := emit (rowsAboutToBeRemoved index index) m in
    let m := with_effect m (QDebug "removed: " (name item)) in
    let m := with_items m (delete (Z.to_nat index) (m_items m)) in
    let m := emit (rowsRemoved index index) m in
    let m := emit (applicationRemoved item) m in
    with_effect m (DeleteLater item).

(** [std::sort] with the comparator of the handler. The standard leaves the
    order of items of equal name open; the model is an insertion sort driven
    by the same comparator, so among items of equal name its order is one of
    the orders the standard allows and need not be the program's. No
    property below depends on that order. *)
Section Sort.
Context {A : Type} (less : A -> A -> bool).

Fixpoint sort_insert (x : A) (l : list A) : list A :=
  match l with
  | [] => [x]
  | y :: l' => if less x y then x :: y :: l' else y :: sort_insert x l'
  end.

Definition std_sort (l : list A) : list A :=
  foldl (fun sorted x => sort_insert x sorted) [] l.

End Sort.

Definition name_less (a b : LauncherItem) : bool := String.ltb (name a) (name b).

(** The handler the constructor connects to [refreshed]. *)
Definition on_refreshed (m : LauncherModel) : LauncherModel :=
  let m := emit modelAboutToBeReset m in
  let m := with_items m (std_sort name_less (m_items m)) in
  emit modelReset m.

Definition refreshed (m : LauncherModel) : LauncherModel :=
  on_refreshed (emit refreshed_signal m).

(** A posted call, run on the thread of the model. *)
Definition dispatch (e : Env) (c : Invocation) (m : LauncherModel) : LauncherModel :=
  match c with
  | InvokeAddApp fileName => addApp e fileName m
  | InvokeRemoveApp item => removeApp item m
  | InvokeRefreshed => refreshed m
  end.

(** Everything that can happen to a model after its construction. *)
Inductive Op :=
| OpDispatch (e : Env) (c : Invocation)
| OpSearch (u : CaseFolding) (key : string)
| OpMove (from to page pageCount : Z)
| OpLaunch (startDetached : QProcess -> bool) (path : string)
| OpSendToDock (key : string)
| OpRemoveFromDock (desktop : string)
| OpSave.

Definition step (o : Op) (m : LauncherModel) : option LauncherModel :=
  match o with
  | OpDispatch e c => Some (dispatch e c m)
  | OpSearch u key => Some (search u key m)
  | OpMove from to page pageCount => move from to page pageCount m
  | OpLaunch sd path => snd <$> launch sd path m
  | OpSendToDock key => Some (sendToDock key m)
  | OpRemoveFromDock desktop => Some (removeFromDock desktop m)
  | OpSave => Some (save m)
  end.

Fixpoint run (ops : list Op) (m : LauncherModel) : option LauncherModel :=
  match ops with
  | [] => Some m
  | o :: ops' =>
      match step o m with
      | Some m' => run ops' m'
      | None => None
      end
  end.

(** * Vocabulary of the properties *)

(** Two texts are the same under a case sensitivity. *)
Definition same_text (cs : CaseSensitivity) (a b : string) : Prop :=
  match cs with
  | CaseSensitive => a = b
  | CaseInsensitive => QString.toLower a = QString.toLower b
  end.

(** [key] occurs in [s]: [s] is some text, then [key], then some text. *)
Definition occurs_in (key s : string) : Prop :=
  exists pre post, s = pre +:+ key +:+ post.

(** The filter predicate of the search, in words: the key occurs in the name
    or in the id of the item, case not counting (the folded key occurs in
    the folded text). *)
Definition Matches (u : CaseFolding) (key : string) (item : LauncherItem) : Prop :=
  occurs_in (caseFolded u key) (caseFolded u (name item)) \/
  occurs_in (caseFolded u key) (caseFolded u (id item)).

(** The letters of the ASCII range, each capital with its small letter:
    the yardstick for texts that differ in the case of letters only. It is
    written down from the alphabet and owes nothing to the case functions of
    the embedding. *)
Definition latin_letters : list (ascii * ascii) :=
  zip (list_ascii_of_string "ABCDEFGHIJKLMNOPQRSTUVWXYZ")
      (list_ascii_of_string "abcdefghijklmnopqrstuvwxyz").

Definition same_letter (a b : ascii) : Prop :=
  a = b \/ (a, b) ∈ latin_letters \/ (b, a) ∈ latin_letters.

(** Two texts of the same length that differ, position by position, in the
    case of a letter at most. *)
Inductive caseless : string -> string -> Prop :=
| caseless_nil : caseless EmptyString EmptyString
| caseless_cons a b s t :
    same_letter a b -> caseless s t -> caseless (String a s) (String b t).

(** Some stretch of [s] is [key] up to the case of its letters. *)
Definition occurs_caseless (key s : string) : Prop :=
  exists pre mid post, s = pre +:+ mid +:+ post /\ caseless mid key.

(** A text of ASCII characters only. *)
Definition is_ascii (s : string) : Prop :=
  Forall (fun c => (N_of_ascii c < 128)%N) (list_ascii_of_string s).

(** The part of the Unicode case folding that no version of the tables
    changes: an ASCII text folds to itself with A to Z made small. *)
Definition folds_ascii (u : CaseFolding) : Prop :=
  forall s, is_ascii s -> caseFolded u s = QString.toLower s.

(** The case folding cut down to the ASCII letters, for the examples. *)
Definition ascii_case : CaseFolding := mkCaseFolding QString.toLower.

(** The ids of the store, in store order. *)
Definition ids (m : LauncherModel) : list string := id <$> m_items m.

Definition unique_ids (l : list LauncherItem) : Prop := NoDup (id <$> l).

(** Every item has a first launch argument. *)
Definition has_args (l : list LauncherItem) : Prop :=
  Forall (fun it => args it <> []) l.

Definition generic_is_comment (l : list LauncherItem) : Prop :=
  Forall (fun it => genericName it = comment it) l.

(** [a] may stand before [b] in a sorted range when [b] is not less than
    [a]. *)
Definition not_after {A} (less : A -> A -> bool) (a b : A) : Prop :=
  less b a = false.

(** The process [launch] starts for an item whose launch arguments are
    [cmd] followed by [rest]. *)
Definition launched_process (cmd : string) (rest : list string) : QProcess :=
  mkProcess "/dev/null" true cmd
    (if decide (cmd = "cutefish-screenshot") then ["-d"; "200"] else rest).

(** Sample data: the file manager entry of the specification's example. *)
Definition files_entry : gmap string string :=
  <["Name" := "Files"]> (<["Exec" := "org.cutefish.filemanager %U"]> ∅).

Definition files_desktop : string := "/usr/share/applications/cutefish-filemanager.desktop".

Definition kde_only_entry : gmap string string :=
  <["OnlyShowIn" := "GNOME;KDE;"]> files_entry.

Definition files_item (a : nat) : LauncherItem :=
  mkItem a files_desktop "Files" "" "" "" ["org.cutefish.filemanager"].

(** [count] is [rowCount]. *)
Definition count (m : LauncherModel) : Z := rowCount m.

(** The guards of [addApp], all passed: the id is new, the entry is not
    terminal-only, its OnlyShowIn list (when declared) holds the environment
    identifier, and it is neither NoDisplay nor Hidden. *)
Definition accepted (e : Env) (fileName : string) (m : LauncherModel) : Prop :=
  findById m fileName = -1 /\
  QVar.toBool (DesktopProperties.value (entry_file e fileName) "Terminal") = false /\
  (DesktopProperties.contains (entry_file e fileName) "OnlyShowIn" = true ->
   QStringList_contains
     (QString.split ";"
        (QVar.toString (DesktopProperties.value (entry_file e fileName) "OnlyShowIn")))
     (detectDesktopEnvironment e) = true) /\
  QVar.toBool (DesktopProperties.value (entry_file e fileName) "NoDisplay") = false /\
  QVar.toBool (DesktopProperties.value (entry_file e fileName) "Hidden") = false.

(** The text of a flag reads as false: the key is absent, or its text is
    empty, 0, or false in any letter case. *)
Definition reads_false (d : gmap string string) (key : string) : Prop :=
  d !! key = None \/
  exists s, d !! key = Some s /\
            (s = EmptyString \/ s = "0" \/ same_text CaseInsensitive s "false").

(** The guards of [addApp] that read the entry alone. *)
Definition entry_shown (e : Env) (fileName : string) : Prop :=
  QVar.toBool (DesktopProperties.value (entry_file e fileName) "Terminal") = false /\
  (DesktopProperties.contains (entry_file e fileName) "OnlyShowIn" = true ->
   QStringList_contains
     (QString.split ";"
        (QVar.toString (DesktopProperties.value (entry_file e fileName) "OnlyShowIn")))
     (detectDesktopEnvironment e) = true) /\
  QVar.toBool (DesktopProperties.value (entry_file e fileName) "NoDisplay") = false /\
  QVar.toBool (DesktopProperties.value (entry_file e fileName) "Hidden") = false.

(** The store holds no pointer twice, and every pointer it holds was
    allocated before the next allocation. *)
Definition distinct_pointers (m : LauncherModel) : Prop :=
  NoDup (addr <$> m_items m) /\
  Forall (fun it => (addr it < next_addr m)%nat) (m_items m).

(** No store item was handed to [deleteLater], and the pointers that were
    are pointers of the past. *)
Definition store_alive (m : LauncherModel) : Prop :=
  Forall (fun a => (a < next_addr m)%nat) (deferred m) /\
  Forall (fun it => addr it ∉ deferred m) (m_items m).

(** The posted calls of a queue, run in posting order. *)
Definition dispatch_all (e : Env) (q : list Invocation) (m : LauncherModel) : LauncherModel :=
  foldl (fun m c => dispatch e c m) m q.

(** [c] is a character of [s]. *)
Definition has_char (c : ascii) (s : string) : Prop :=
  c ∈ list_ascii_of_string s.

(** Sample data: a disk and a store that disagree. *)
Definition sample_disk : Disk :=
  mkDisk ["/a.desktop"; "/b.desktop"; "/gone.desktop"]
         (fun f => negb (String.eqb f "/gone.desktop")).

Definition sample_store : LauncherModel :=
  mkModel [mkItem 0 "/old.desktop" "Old" "" "" "" ["old"];
           mkItem 1 "/b.desktop" "Archive" "" "" "" ["org.cutefish.filemanager"]]
          [] NormalMode 2 [].

(** * Properties *)

(** ** Text *)

Lemma toLower_toUpper_char c :
  QChar.toLower (QChar.toUpper c) = QChar.toLower c.
Proof. destruct c as [[] [] [] [] [] [] [] []]; reflexivity. Qed.

Lemma toLower_toUpper s :
  QString.toLower (QString.toUpper s) = QString.toLower s.
Proof.
  induction s as [|c s IH]; simpl; [reflexivity|].
  unfold QString.toLower, QString.toUpper in *; simpl.
  now rewrite toLower_toUpper_char, IH.
Qed.

Lemma same_text_refl cs a : same_text cs a a.
Proof. destruct cs; reflexivity. Qed.

Lemma startsWith_spec s key :
  QString.startsWith s key = true <-> exists post, s = key +:+ post.
Proof.
  revert s; induction key as [|k key IH]; intros s.
  - split; [intros _; now exists s | destruct s; reflexivity].
  - destruct s as [|c s]; simpl.
    + split; [discriminate | intros [post Hs]; discriminate Hs].
    + rewrite andb_true_iff, Ascii.eqb_eq, IH. split.
      * intros (-> & post & ->). now exists post.
      * intros [post [= -> ->]]. split; [reflexivity | now exists post].
Qed.

Lemma occurs_spec s key : QString.occurs s key = true <-> occurs_in key s.
Proof.
  unfold occurs_in. induction s as [|c s IH].
  - cbn [QString.occurs]. rewrite orb_false_r, startsWith_spec. split.
    + intros [post Hs]. now exists EmptyString, post.
    + intros (pre & post & Hs). destruct pre; [|discriminate Hs]. now exists post.
  - cbn [QString.occurs]. rewrite orb_true_iff, IH, startsWith_spec. split.
    + intros [[post Hs] | (pre & post & ->)].
      * now exists EmptyString, post.
      * now exists (String c pre), post.
    + intros (pre & post & Hs). destruct pre as [|x pre].
      * left. now exists post.
      * right. simpl in Hs; injection Hs as <- ->. eauto.
Qed.

(** Every text contains the empty key. *)
Lemma contains_empty_key u cs s : QString.contains u cs s EmptyString = true.
Proof. destruct cs, s; reflexivity. Qed.

(** *** The case of the ASCII letters *)

Lemma toLower_letter c :
  QChar.toLower c = c \/ (c, QChar.toLower c) ∈ latin_letters.
Proof.
  destruct c as [[] [] [] [] [] [] [] []];
    first [ left; reflexivity
          | right; apply (bool_decide_unpack _); vm_compute; exact I ].
Qed.

Lemma latin_letters_cases u l :
  (u, l) ∈ latin_letters ->
  QChar.toLower u = l /\ QChar.toLower l = l /\ QChar.toUpper l = u.
Proof.
  unfold latin_letters. cbn [list_ascii_of_string zip zip_with]. intros H.
  repeat (apply elem_of_cons in H as [[= -> ->]|H];
          [repeat split; reflexivity|]).
  now apply elem_of_nil in H.
Qed.

(** The small-letter mapping of the embedding identifies two characters
    exactly when the alphabet says they are one letter. *)
Lemma toLower_same_letter c d :
  QChar.toLower c = QChar.toLower d <-> same_letter c d.
Proof.
  unfold same_letter. split.
  - intros Heq.
    destruct (toLower_letter c) as [Hc|Hc], (toLower_letter d) as [Hd|Hd].
    + left. congruence.
    + right; right. rewrite Hc in Heq. now rewrite Heq.
    + right; left. rewrite Hd in Heq. now rewrite <- Heq.
    + left. apply latin_letters_cases in Hc as (_ & _ & <-).
      apply latin_letters_cases in Hd as (_ & _ & <-). now rewrite Heq.
  - intros [->|[H|H]]; [reflexivity| |];
      apply latin_letters_cases in H as (H1 & H2 & _); congruence.
Qed.

Lemma toLower_cons c s :
  QString.toLower (String c s) = String (QChar.toLower c) (QString.toLower s).
Proof. reflexivity. Qed.

Lemma caseless_toLower s t :
  caseless s t <-> QString.toLower s = QString.toLower t.
Proof.
  split.
  - induction 1 as [|a b s t Hab _ IH]; [reflexivity|].
    rewrite !toLower_cons, IH. f_equal. now apply toLower_same_letter.
  - revert t; induction s as [|a s IH]; intros [|b t]; try discriminate.
    + constructor.
    + rewrite !toLower_cons. intros [= Hab Hst].
      constructor; [now apply toLower_same_letter | now apply IH].
Qed.

Lemma map_append f a b :
  QString.map f (a +:+ b) = QString.map f a +:+ QString.map f b.
Proof. induction a as [|c a IH]; simpl; [reflexivity | now rewrite IH]. Qed.

Lemma map_split f s a b :
  QString.map f s = a +:+ b ->
  exists a' b', s = a' +:+ b' /\ QString.map f a' = a /\ QString.map f b' = b.
Proof.
  revert s; induction a as [|c a IH]; intros s Hs.
  - now exists EmptyString, s.
  - destruct s as [|x s]; [discriminate Hs|]. simpl in Hs. injection Hs as <- Hs.
    destruct (IH _ Hs) as (a' & b' & -> & <- & <-).
    now exists (String x a'), b'.
Qed.

(** Finding the small-lettered key in the small-lettered text is finding a
    stretch of the text that is the key up to the case of its letters. *)
Lemma occurs_toLower key s :
  occurs_in (QString.toLower key) (QString.toLower s) <-> occurs_caseless key s.
Proof.
  unfold occurs_in, occurs_caseless, QString.toLower. split.
  - intros (pre & post & Hs).
    apply map_split in Hs as (pre' & rest & -> & _ & Hrest).
    apply map_split in Hrest as (mid & post' & -> & Hmid & _).
    exists pre', mid, post'. split; [reflexivity|]. now apply caseless_toLower.
  - intros (pre & mid & post & -> & Hmid). apply caseless_toLower in Hmid.
    exists (QString.map QChar.toLower pre), (QString.map QChar.toLower post).
    rewrite !map_append. unfold QString.toLower in Hmid. now rewrite Hmid.
Qed.

Lemma ascii_case_folds : folds_ascii ascii_case.
Proof. intros s _. reflexivity. Qed.

Lemma QStringList_contains_spec l s : QStringList_contains l s = true <-> s ∈ l.
Proof.
  unfold QStringList_contains. rewrite existsb_exists. split.
  - intros (x & Hx & Heq). apply String.eqb_eq in Heq as ->.
    now apply list_elem_of_In.
  - intros Hs. exists s; split; [now apply list_elem_of_In | apply String.eqb_refl].
Qed.

Lemma QStringList_contains_false l s : QStringList_contains l s = false <-> s ∉ l.
Proof.
  rewrite <- QStringList_contains_spec. now destruct (QStringList_contains l s).
Qed.

(** A loop that appends the elements it keeps is a filter. *)
Lemma foldl_append_filter {A} (f : A -> bool) (l acc : list A) :
  foldl (fun acc x => if f x then acc ++ [x] else acc) acc l =
  acc ++ List.filter f l.
Proof.
  revert acc; induction l as [|x l IH]; intros acc; simpl.
  - now rewrite app_nil_r.
  - rewrite IH. destruct (f x); [|reflexivity].
    now rewrite <- app_assoc.
Qed.

Lemma List_filter_stdpp {A} (f : A -> bool) (P : A -> Prop)
    `{!forall x, Decision (P x)} (l : list A) :
  (forall x, f x = true <-> P x) -> List.filter f l = filter P l.
Proof.
  intros Hf. induction l as [|x l IH]; [reflexivity|].
  simpl. rewrite filter_cons, IH.
  destruct (decide (P x)) as [HP|HP]; destruct (f x) eqn:E; try reflexivity.
  - apply Hf in HP. congruence.
  - apply Hf in E. contradiction.
Qed.

(** ** Search *)

Lemma search_match_spec u key item :
  key <> EmptyString ->
  (search_match u key item = true <-> Matches u key item).
Proof.
  intros Hkey. unfold search_match, Matches, QString.contains.
  destruct key; [contradiction|]. cbn [QString.isEmpty orb].
  now rewrite orb_true_iff, !occurs_spec.
Qed.

(** On ASCII texts every case folding that agrees with Unicode decides as
    the folding of the ASCII letters does. *)
Lemma search_match_ascii u key item :
  folds_ascii u -> is_ascii key -> is_ascii (name item) -> is_ascii (id item) ->
  search_match u key item = search_match ascii_case key item.
Proof.
  intros Hu Hk Hn Hi. unfold search_match, QString.contains.
  now rewrite (Hu _ Hk), (Hu _ Hn), (Hu _ Hi).
Qed.

Lemma m_items_emit s m : m_items (emit s m) = m_items m.
Proof. unfold emit. now destruct (raises_countChanged s). Qed.

Lemma m_mode_emit s m : m_mode (emit s m) = m_mode m.
Proof. unfold emit. now destruct (raises_countChanged s). Qed.

Lemma m_searchItems_emit s m : m_searchItems (emit s m) = m_searchItems m.
Proof. unfold emit. now destruct (raises_countChanged s). Qed.

Lemma search_found u key m :
  m_searchItems (search u key m) = List.filter (search_match u key) (m_items m).
Proof.
  unfold search. rewrite m_searchItems_emit. cbn [m_searchItems m_items].
  now rewrite foldl_append_filter.
Qed.

Lemma rowCount_rows m : rowCount m = Z.of_nat (length (rows m)).
Proof. unfold rowCount, rows. now destruct (m_mode m). Qed.

Lemma data_rows m index role :
  isValid index = true ->
  data m index role =
  match QList_at (rows m) (row index) with
  | Some item =>
      if awaits_deletion m item then None else Some (role_data item role)
  | None => None
  end.
Proof.
  intros Hv. unfold data, rows. rewrite Hv. cbn [negb].
  now destruct (m_mode m).
Qed.

(** C4. [search] with an empty key puts the model in normal mode and the
    view shows the whole store, in store order; with a non-empty key the
    model is in search mode and the view shows exactly the store items whose
    name or id contains the key, case not counting, in store order: the rows
    are the store filtered by [search_match], which holds of an item exactly
    when the case-folded key occurs in its case-folded name or id, whatever
    the script. The store itself is never changed by a search. On ASCII
    texts, where every version of the Unicode tables folds A to Z and
    nothing else, that is: some stretch of the name or the id is the key up
    to the case of its letters, as the alphabet pairs them. *)
Theorem search_view (u : CaseFolding) (key : string) (m : LauncherModel) :
  m_items (search u key m) = m_items m /\
  (key = EmptyString ->
     m_mode (search u key m) = NormalMode /\
     rows (search u key m) = m_items m) /\
  (key <> EmptyString ->
     m_mode (search u key m) = SearchMode /\
     rows (search u key m) = List.filter (search_match u key) (m_items m) /\
     (forall item, search_match u key item = true <-> Matches u key item) /\
     (forall item, item ∈ rows (search u key m) <->
                   item ∈ m_items m /\ Matches u key item)) /\
  (folds_ascii u -> is_ascii key ->
   forall item, is_ascii (name item) -> is_ascii (id item) ->
     (Matches u key item <->
      occurs_caseless key (name item) \/ occurs_caseless key (id item))).
Proof.
  split; [|split; [|split]].
  - unfold search. now rewrite m_items_emit.
  - intros ->. unfold rows, search.
    rewrite m_mode_emit, m_items_emit. auto.
  - intros Hkey.
    assert (Hmode : m_mode (search u key m) = SearchMode).
    { unfold search. rewrite m_mode_emit. destruct key; [contradiction|reflexivity]. }
    assert (Hrows : rows (search u key m) =
                    List.filter (search_match u key) (m_items m)).
    { unfold rows. rewrite Hmode. apply search_found. }
    split; [exact Hmode|]. split; [exact Hrows|].
    split; [intros item; now apply search_match_spec|].
    intros item.
    rewrite Hrows, !list_elem_of_In, filter_In, (search_match_spec u key item Hkey).
    reflexivity.
  - intros Hu Hk item Hn Hi. unfold Matches.
    rewrite (Hu _ Hk), (Hu _ Hn), (Hu _ Hi), !occurs_toLower. reflexivity.
Qed.

Example search_example :
  let it (a : nat) (n f : string) := mkItem a f n "" "" "" [n] in
  let store := [it 0%nat "Files" "/usr/share/applications/cutefish-filemanager.desktop";
                it 1%nat "Calculator" "/usr/share/applications/calc.desktop";
                it 2%nat "Terminal" "/usr/share/applications/cutefish-terminal.desktop"] in
  let m := mkModel store [] NormalMode 3 [] in
  rows (search ascii_case "FISH" m) =
    [it 0%nat "Files" "/usr/share/applications/cutefish-filemanager.desktop";
     it 2%nat "Terminal" "/usr/share/applications/cutefish-terminal.desktop"] /\
  rows (search ascii_case "" (search ascii_case "FISH" m)) = store.
Proof. split; vm_compute; reflexivity. Qed.

(** Under every case folding that folds ASCII text as Unicode does, the
    key FISH finds the item of cutefish-filemanager and not the calculator. *)
Example search_finds_cutefish (u : CaseFolding) :
  folds_ascii u ->
  search_match u "FISH" (files_item 0) = true /\
  search_match u "FISH"
    (mkItem 1 "/usr/share/applications/calc.desktop" "Calculator" "" "" "" ["calc"]) = false.
Proof.
  intros Hu.
  assert (Ha : forall s, bool_decide (is_ascii s) = true -> is_ascii s)
    by (intros s; apply bool_decide_eq_true_1).
  split; rewrite (search_match_ascii u) by (try exact Hu; apply Ha; vm_compute; reflexivity);
    vm_compute; reflexivity.
Qed.

(** ** The store *)

Lemma findById_from_absent i items key :
  findById_from i items key = -1 -> 0 <= i -> key ∉ (id <$> items).
Proof.
  revert i; induction items as [|it rest IH]; intros i H Hi; simpl in *.
  - apply not_elem_of_nil.
  - destruct (String.eqb_spec (id it) key) as [Heq|Hne]; [lia|].
    apply not_elem_of_cons; split; [congruence|].
    apply (IH (i + 1)); [assumption | lia].
Qed.

Lemma findById_from_found i items key :
  findById_from i items key <> -1 -> key ∈ (id <$> items).
Proof.
  revert i; induction items as [|it rest IH]; intros i H; simpl in *.
  - congruence.
  - destruct (String.eqb_spec (id it) key) as [Heq|Hne].
    + subst. apply elem_of_cons; auto.
    + apply elem_of_cons; right. eapply IH; eassumption.
Qed.

Lemma findById_from_present i items key :
  key ∈ (id <$> items) -> 0 <= i -> findById_from i items key <> -1.
Proof.
  intros Hin Hi Habs. now apply findById_from_absent in Habs.
Qed.

Lemma findById_absent m key : findById m key = -1 <-> key ∉ ids m.
Proof.
  unfold findById, ids. split.
  - intros H. apply (findById_from_absent 0); [assumption | lia].
  - intros Hn. destruct (Z.eq_dec (findById_from 0 (m_items m) key) (-1)) as [|Hne];
      [assumption|].
    now apply findById_from_found in Hne.
Qed.

Lemma findById_from_range i items key :
  0 <= i ->
  findById_from i items key = -1 \/
  i <= findById_from i items key < i + Z.of_nat (length items).
Proof.
  revert i; induction items as [|x l IH]; intros i Hi; simpl; [now left|].
  destruct (String.eqb (id x) key); [right; lia|].
  destruct (IH (i + 1)) as [H|H]; [lia | now left | right; lia].
Qed.

(** Where [findById] points when the id is in the store: at the first item
    with that id. *)
Lemma findById_from_first i pre item post key :
  key ∉ (id <$> pre) -> id item = key ->
  findById_from i (pre ++ item :: post) key = i + Z.of_nat (length pre).
Proof.
  revert i; induction pre as [|x pre IH]; intros i Hpre Hid; simpl.
  - rewrite Hid, String.eqb_refl. lia.
  - rewrite fmap_cons in Hpre. apply not_elem_of_cons in Hpre as [Hx Hpre].
    destruct (String.eqb_spec (id x) key) as [Heq|_]; [congruence|].
    rewrite IH by assumption. lia.
Qed.

(** The item [addApp] builds from an entry, once the entry is accepted. *)
Lemma addApp_cases e fileName m :
  addApp e fileName m = m \/
  ((fileName ∉ ids m) /\
   exists item,
     m_items (addApp e fileName m) = m_items m ++ [item] /\
     id item = fileName /\
     addr item = next_addr m /\
     genericName item = comment item /\
     comment item =
       QVar.toString (DesktopProperties.value (entry_file e fileName) "Comment") /\
     args item =
       exec_args (QVar.toString (DesktopProperties.value (entry_file e fileName) "Exec"))).
Proof.
  unfold addApp.
  destruct (findById m fileName =? -1) eqn:Hfind; [|now left].
  apply Z.eqb_eq, findById_absent in Hfind. cbn [negb].
  repeat (match goal with
          | |- context [if ?c then m else _] => destruct c; [now left|]
          end).
  right. split; [assumption|].
  eexists. rewrite m_items_emit. cbn [m_items with_effect].
  rewrite m_items_emit. split; [reflexivity|]. cbn. auto.
Qed.

Lemma exec_split_nonempty sep s : QString.split sep s <> [].
Proof.
  destruct s as [|c s]; simpl; [discriminate|].
  destruct (Ascii.eqb c sep); [discriminate|].
  destruct (QString.split sep s); discriminate.
Qed.

Lemma exec_args_nonempty appExec : exec_args appExec <> [].
Proof. unfold exec_args. apply exec_split_nonempty. Qed.

Lemma removeApp_items item m :
  m_items (removeApp item m) = m_items m \/
  exists i, m_items (removeApp item m) = delete i (m_items m).
Proof.
  unfold removeApp. destruct (indexOf (m_items m) item <? 0); [now left|].
  right. eexists. cbn [m_items with_effect].
  rewrite !m_items_emit. cbn [m_items with_items with_effect].
  reflexivity.
Qed.

(** *** Sorting *)

Section SortFacts.
Context {A : Type} (less : A -> A -> bool).

Lemma sort_insert_perm x l : sort_insert less x l ≡ₚ x :: l.
Proof.
  induction l as [|y l IH]; simpl; [reflexivity|].
  destruct (less x y); [reflexivity|].
  rewrite IH. apply Permutation_swap.
Qed.

Lemma std_sort_from_perm acc l :
  foldl (fun sorted x => sort_insert less x sorted) acc l ≡ₚ acc ++ l.
Proof.
  revert acc; induction l as [|x l IH]; intros acc; simpl.
  - now rewrite app_nil_r.
  - rewrite IH, sort_insert_perm. apply Permutation_middle.
Qed.

Lemma std_sort_perm l : std_sort less l ≡ₚ l.
Proof. unfold std_sort. now rewrite std_sort_from_perm. Qed.

Hypothesis less_asym : forall a b, less a b = true -> less b a = false.

Lemma sort_insert_sorted x l :
  Sorted (not_after less) l -> Sorted (not_after less) (sort_insert less x l).
Proof.
  induction 1 as [|y l Hl IH Hhd]; simpl.
  - repeat constructor.
  - destruct (less x y) eqn:E.
    + constructor; [now constructor|]. constructor. now apply less_asym.
    + constructor; [assumption|].
      destruct Hhd as [|z l Hyz]; simpl.
      * now constructor.
      * destruct (less x z); now constructor.
Qed.

Lemma std_sort_from_sorted acc l :
  Sorted (not_after less) acc ->
  Sorted (not_after less) (foldl (fun sorted x => sort_insert less x sorted) acc l).
Proof.
  revert acc; induction l as [|x l IH]; intros acc Hacc; simpl; [assumption|].
  apply IH, sort_insert_sorted, Hacc.
Qed.

Lemma std_sort_sorted l : Sorted (not_after less) (std_sort less l).
Proof. apply std_sort_from_sorted. constructor. Qed.

End SortFacts.

(** *** What each operation does to the store *)

Lemma QList_move_perm {A} (from to : Z) (l l' : list A) :
  QList_move from to l = Some l' -> l' ≡ₚ l.
Proof.
  unfold QList_move. case_match; [|discriminate].
  destruct (l !! Z.to_nat from) as [x|] eqn:Hx; [|discriminate].
  intros [= <-]. rewrite <- Permutation_middle.
  rewrite take_drop. symmetry. now apply delete_Permutation.
Qed.

(** [QList::move] succeeds exactly on indices inside the list. *)
Lemma QList_move_defined {A} (from to : Z) (l : list A) :
  is_Some (QList_move from to l) <->
  0 <= from < Z.of_nat (length l) /\ 0 <= to < Z.of_nat (length l).
Proof.
  unfold QList_move. split.
  - intros [l' H]. case_match eqn:E; [|discriminate]. lia.
  - intros [Hf Ht]. case_match eqn:E; [|lia].
    destruct (lookup_lt_is_Some_2 l (Z.to_nat from)) as [x ->]; [lia|]. eauto.
Qed.

Lemma launch_items sd path m r m' :
  launch sd path m = Some (r, m') -> m_items m' = m_items m.
Proof.
  unfold launch. repeat case_match; try discriminate; intros [= <- <-];
    cbn [m_items with_effect]; rewrite ?m_items_emit; reflexivity.
Qed.

Lemma step_items o m m' :
  step o m = Some m' ->
  (exists e fileName, m' = addApp e fileName m) \/ m_items m' ⊆+ m_items m.
Proof.
  destruct o as [e [fileName|item|]|key|from to page pageCount|sd path|key|desktop|];
    simpl; intros Hstep.
  - left. injection Hstep as <-. eauto.
  - right. injection Hstep as <-.
    destruct (removeApp_items item m) as [->|[i ->]];
      [reflexivity | apply submseteq_delete].
  - right. injection Hstep as <-. unfold refreshed, on_refreshed.
    rewrite m_items_emit. cbn [m_items with_items]. rewrite !m_items_emit.
    apply Permutation_submseteq, std_sort_perm.
  - right. injection Hstep as <-. unfold search. now rewrite m_items_emit.
  - right. unfold move in Hstep. destruct (from =? to); [now injection Hstep as <-|].
    destruct (QList_move _ _ _) as [l|] eqn:Hmove; [|discriminate].
    injection Hstep as <-. cbn [m_items with_items].
    apply Permutation_submseteq. eapply QList_move_perm, Hmove.
  - right. destruct (launch sd path m) as [[r m'']|] eqn:Hl; [|discriminate].
    simpl in Hstep. injection Hstep as <-.
    now rewrite (launch_items _ _ _ _ _ Hl).
  - right. injection Hstep as <-. unfold sendToDock. now case_match.
  - right. injection Hstep as <-. unfold removeFromDock. now case_match.
  - right. now injection Hstep as <-.
Qed.

(** A property of the store that survives taking items away and
    reordering, and that [addApp] keeps, holds after every run. *)
Section StoreInvariant.
Context (P : list LauncherItem -> Prop).
Hypothesis P_sub : forall l k, l ⊆+ k -> P k -> P l.
Hypothesis P_add : forall e fileName m, P (m_items m) -> P (m_items (addApp e fileName m)).

Lemma step_preserves o m m' : P (m_items m) -> step o m = Some m' -> P (m_items m').
Proof.
  intros HP Hstep. destruct (step_items _ _ _ Hstep) as [(e & f & ->)|Hsub].
  - now apply P_add.
  - eapply P_sub; eassumption.
Qed.

Lemma run_preserves ops m m' : P (m_items m) -> run ops m = Some m' -> P (m_items m').
Proof.
  revert m; induction ops as [|o ops IH]; intros m HP; simpl.
  - now intros [= <-].
  - destruct (step o m) as [m1|] eqn:Hstep; [|discriminate].
    apply IH. eapply step_preserves; eassumption.
Qed.

End StoreInvariant.

Lemma submseteq_NoDup {A} (l k : list A) : l ⊆+ k -> NoDup k -> NoDup l.
Proof.
  intros Hsub Hk. apply submseteq_Permutation in Hsub as [k' Hk'].
  rewrite Hk' in Hk. now apply NoDup_app in Hk as [? _].
Qed.

Lemma submseteq_Forall {A} (Q : A -> Prop) (l k : list A) :
  l ⊆+ k -> Forall Q k -> Forall Q l.
Proof.
  rewrite !Forall_forall. intros Hsub Hk x Hx.
  apply Hk. eapply elem_of_submseteq; eassumption.
Qed.

Lemma unique_ids_sub l k : l ⊆+ k -> unique_ids k -> unique_ids l.
Proof.
  unfold unique_ids. intros Hsub. apply submseteq_NoDup. now rewrite Hsub.
Qed.

Lemma unique_ids_addApp e fileName m :
  unique_ids (m_items m) -> unique_ids (m_items (addApp e fileName m)).
Proof.
  unfold unique_ids. intros Hm.
  destruct (addApp_cases e fileName m) as [->|(Hnew & item & -> & Hid & _)];
    [assumption|].
  rewrite fmap_app. apply NoDup_app. split; [assumption|]. split.
  - intros x Hx. simpl. rewrite Hid. intros ->%list_elem_of_singleton.
    contradiction.
  - simpl. apply NoDup_singleton.
Qed.

(** C1. No two items of the store share an id: [addApp] with a file name
    whose id is in the store leaves the model as it is; every operation
    keeps the ids of the store distinct; so they are distinct after every
    sequence of [addApp] calls and after every run of operations on a new
    model. *)
Theorem store_ids_unique :
  (forall e fileName m, fileName ∈ ids m -> addApp e fileName m = m) /\
  (forall o m m', NoDup (ids m) -> step o m = Some m' -> NoDup (ids m')) /\
  (forall (calls : list (Env * string)) m,
     NoDup (ids m) ->
     NoDup (ids (foldl (fun m c => addApp c.1 c.2 m) m calls))) /\
  (forall ops m, run ops LauncherModel_new = Some m -> NoDup (ids m)).
Proof.
  split; [|split; [|split]].
  - intros e fileName m Hin. unfold addApp.
    destruct (findById m fileName =? -1) eqn:Hfind; [|reflexivity].
    apply Z.eqb_eq, findById_absent in Hfind. contradiction.
  - intros o m m'.
    apply (step_preserves unique_ids unique_ids_sub unique_ids_addApp).
  - intros calls. induction calls as [|[e f] calls IH]; intros m Hm; simpl;
      [assumption|].
    apply IH. now apply unique_ids_addApp.
  - intros ops m.
    apply (run_preserves unique_ids unique_ids_sub unique_ids_addApp).
    apply NoDup_nil_2.
Qed.

(** ** The entry filter *)

Lemma toBool_contains d key :
  QVar.toBool (DesktopProperties.value d key) = true ->
  DesktopProperties.contains d key = true.
Proof.
  unfold DesktopProperties.value, DesktopProperties.contains.
  destruct (d !! key) as [s|]; [intros _ | discriminate].
  apply bool_decide_eq_true. eauto.
Qed.

(** The guards an entry has passed when [addApp] changes the store. *)
Lemma addApp_changed e fileName m :
  m_items (addApp e fileName m) <> m_items m ->
  let desktop := entry_file e fileName in
  findById m fileName = -1 /\
  QVar.toBool (DesktopProperties.value desktop "Terminal") = false /\
  (DesktopProperties.contains desktop "OnlyShowIn" = true ->
   QStringList_contains
     (QString.split ";" (QVar.toString (DesktopProperties.value desktop "OnlyShowIn")))
     (detectDesktopEnvironment e) = true) /\
  QVar.toBool (DesktopProperties.value desktop "NoDisplay") = false /\
  QVar.toBool (DesktopProperties.value desktop "Hidden") = false.
Proof.
  intros H desktop. unfold addApp in H.
  destruct (findById m fileName =? -1) eqn:Hfind; [|contradiction].
  apply Z.eqb_eq in Hfind. cbn [negb] in H. fold desktop in H.
  destruct (QVar.toBool (DesktopProperties.value desktop "Terminal")) eqn:Ht.
  { rewrite (toBool_contains _ _ Ht) in H. contradiction. }
  rewrite andb_false_r in H.
  destruct (DesktopProperties.contains desktop "OnlyShowIn") eqn:Ho;
    cbn [andb] in H.
  - destruct (QStringList_contains _ _) eqn:Hc; [|contradiction].
    cbn [negb] in H.
    destruct (QVar.toBool (DesktopProperties.value desktop "NoDisplay"));
      [contradiction|].
    destruct (QVar.toBool (DesktopProperties.value desktop "Hidden"));
      [contradiction|]. auto.
  - destruct (QVar.toBool (DesktopProperties.value desktop "NoDisplay"));
      [contradiction|].
    destruct (QVar.toBool (DesktopProperties.value desktop "Hidden"));
      [contradiction|].
    repeat split; auto. discriminate.
Qed.

(** C2. An entry whose Terminal, NoDisplay or Hidden value is true creates
    no item: [addApp] leaves the model as it is, whatever the other fields
    of the entry, the environment and the model are. *)
Theorem addApp_rejects_flagged (e : Env) (fileName : string) (m : LauncherModel) :
  QVar.toBool (DesktopProperties.value (entry_file e fileName) "Terminal") = true \/
  QVar.toBool (DesktopProperties.value (entry_file e fileName) "NoDisplay") = true \/
  QVar.toBool (DesktopProperties.value (entry_file e fileName) "Hidden") = true ->
  addApp e fileName m = m.
Proof.
  intros Hflag. unfold addApp.
  destruct (negb (findById m fileName =? -1)); [reflexivity|].
  destruct Hflag as [Ht|[Hn|Hh]].
  - now rewrite (toBool_contains _ _ Ht), Ht.
  - rewrite Hn. cbn [orb]. now repeat case_match.
  - rewrite Hh, orb_true_r. now repeat case_match.
Qed.

(** The texts an entry file usually writes for a true flag. *)
Lemma toBool_true_texts :
  QVar.toBool (QVString "true") = true /\
  QVar.toBool (QVString "True") = true /\
  QVar.toBool (QVString "1") = true /\
  QVar.toBool (QVString "false") = false /\
  QVar.toBool (QVString "0") = false /\
  QVar.toBool (QVString "") = false /\
  QVar.toBool Invalid = false.
Proof. repeat split; reflexivity. Qed.

Lemma addApp_rejects_flagged_witness :
  let e := mkEnv "Cutefish" "en_US" (fun _ => <["Terminal" := "true"]> files_entry) in
  (QVar.toBool (DesktopProperties.value (entry_file e files_desktop) "Terminal") = true \/
   QVar.toBool (DesktopProperties.value (entry_file e files_desktop) "NoDisplay") = true \/
   QVar.toBool (DesktopProperties.value (entry_file e files_desktop) "Hidden") = true) /\
  addApp e files_desktop LauncherModel_new = LauncherModel_new.
Proof.
  intros e.
  assert (H : QVar.toBool (DesktopProperties.value (entry_file e files_desktop) "Terminal") = true)
    by (vm_compute; reflexivity).
  split; [left; exact H|].
  apply (addApp_rejects_flagged e files_desktop LauncherModel_new). left; exact H.
Defined.

(** C3. For an entry that declares OnlyShowIn: when [addApp] adds an item,
    some element of the list is the environment identifier up to case (and
    is then also the XDG_CURRENT_DESKTOP value up to case, when that is
    set); when no element of the list is the identifier up to case, the
    model is left as it is. *)
Theorem addApp_OnlyShowIn (e : Env) (fileName : string) (m : LauncherModel) :
  let desktop := entry_file e fileName in
  let shown :=
    QString.split ";" (QVar.toString (DesktopProperties.value desktop "OnlyShowIn")) in
  DesktopProperties.contains desktop "OnlyShowIn" = true ->
  (m_items (addApp e fileName m) <> m_items m ->
   exists x, x ∈ shown /\
     same_text CaseInsensitive x (detectDesktopEnvironment e) /\
     (XDG_CURRENT_DESKTOP e <> EmptyString ->
      same_text CaseInsensitive x (XDG_CURRENT_DESKTOP e))) /\
  ((forall x, x ∈ shown -> ~ same_text CaseInsensitive x (detectDesktopEnvironment e)) ->
   addApp e fileName m = m).
Proof.
  intros desktop shown Hdecl.
  assert (Hadd : m_items (addApp e fileName m) <> m_items m ->
                 detectDesktopEnvironment e ∈ shown).
  { intros Hch. apply addApp_changed in Hch as (_ & _ & Hshow & _).
    apply QStringList_contains_spec, Hshow, Hdecl. }
  split.
  - intros Hch. exists (detectDesktopEnvironment e).
    split; [now apply Hadd|]. split; [reflexivity|].
    intros Hset. unfold detectDesktopEnvironment.
    destruct (XDG_CURRENT_DESKTOP e); [contradiction|].
    apply toLower_toUpper.
  - intros Hnone.
    destruct (addApp_cases e fileName m) as [Heq|(_ & item & Hitems & _)];
      [exact Heq|].
    exfalso. apply (Hnone (detectDesktopEnvironment e)); [|reflexivity].
    apply Hadd. rewrite Hitems. intros Habs.
    apply (f_equal length) in Habs. rewrite length_app in Habs. simpl in Habs.
    lia.
Qed.

Lemma addApp_OnlyShowIn_witness :
  let e := mkEnv "kde" "en_US" (fun _ => kde_only_entry) in
  DesktopProperties.contains (entry_file e files_desktop) "OnlyShowIn" = true /\
  exists x,
    x ∈ QString.split ";"
          (QVar.toString
             (DesktopProperties.value (entry_file e files_desktop) "OnlyShowIn")) /\
    same_text CaseInsensitive x (detectDesktopEnvironment e) /\
    (XDG_CURRENT_DESKTOP e <> EmptyString ->
     same_text CaseInsensitive x (XDG_CURRENT_DESKTOP e)).
Proof.
  intros e.
  assert (Hd : DesktopProperties.contains (entry_file e files_desktop) "OnlyShowIn" = true)
    by (vm_compute; reflexivity).
  split; [exact Hd|].
  apply (proj1 (addApp_OnlyShowIn e files_desktop LauncherModel_new Hd)).
  vm_compute. discriminate.
Defined.

(** The list side of the comparison is taken as written: the test is
    [QStringList::contains] of the upper-cased identifier, so a lower-case
    element does not let the entry in. *)
Example OnlyShowIn_element_case :
  let lower := mkEnv "KDE" "en_US" (fun _ => <["OnlyShowIn" := "kde;"]> files_entry) in
  let upper := mkEnv "kde" "en_US" (fun _ => <["OnlyShowIn" := "KDE;"]> files_entry) in
  m_items (addApp lower files_desktop LauncherModel_new) = [] /\
  length (m_items (addApp upper files_desktop LauncherModel_new)) = 1%nat.
Proof. split; vm_compute; reflexivity. Qed.

(** C7. The entry Name=Files, Exec=org.cutefish.filemanager %U, without a
    name for the locale (absent or empty), without OnlyShowIn and without a
    true Terminal, NoDisplay or Hidden, whose id is not in the store yet:
    [addApp] appends an item named Files whose launch arguments are the one
    word org.cutefish.filemanager. *)
Theorem addApp_Files (e : Env) (fileName : string) (m : LauncherModel) :
  let desktop := entry_file e fileName in
  findById m fileName = -1 ->
  desktop !! "Name" = Some "Files" ->
  desktop !! "Exec" = Some "org.cutefish.filemanager %U" ->
  QVar.toString
    (DesktopProperties.value desktop ("Name[" +:+ locale_name e +:+ "]")) = EmptyString ->
  desktop !! "OnlyShowIn" = None ->
  QVar.toBool (DesktopProperties.value desktop "Terminal") = false ->
  QVar.toBool (DesktopProperties.value desktop "NoDisplay") = false ->
  QVar.toBool (DesktopProperties.value desktop "Hidden") = false ->
  exists item,
    m_items (addApp e fileName m) = m_items m ++ [item] /\
    id item = fileName /\
    name item = "Files" /\
    args item = ["org.cutefish.filemanager"].
Proof.
  intros desktop Hfind Hname Hexec Hloc Honly Hterm Hnd Hh.
  unfold addApp. fold desktop.
  rewrite Hfind, Z.eqb_refl, Hterm, andb_false_r, Hnd, Hh, Hloc. cbn [negb orb].
  assert (Hc : DesktopProperties.contains desktop "OnlyShowIn" = false).
  { unfold DesktopProperties.contains. rewrite Honly.
    apply bool_decide_eq_false. intros [? ?]; discriminate. }
  rewrite Hc. cbn [andb QString.isEmpty].
  eexists. rewrite m_items_emit. cbn [m_items with_effect]. rewrite m_items_emit.
  split; [reflexivity|]. cbn [id name args].
  unfold DesktopProperties.value. rewrite Hname, Hexec.
  repeat split; reflexivity.
Qed.

Lemma addApp_Files_witness :
  let e := mkEnv "Cutefish" "en_US" (fun _ => files_entry) in
  exists item,
    m_items (addApp e files_desktop LauncherModel_new) = [] ++ [item] /\
    id item = files_desktop /\
    name item = "Files" /\
    args item = ["org.cutefish.filemanager"].
Proof.
  intros e.
  apply (addApp_Files e files_desktop LauncherModel_new); vm_compute; reflexivity.
Defined.

(** What the normalisation of [Exec] does with quotes, field codes and
    blanks, on a command that has all of them. *)
Example exec_args_quoted :
  exec_args ("  " +:+ String "034" "/usr/bin/env" +:+
             String "034" " FOO=1  gimp-2.10 %U --x %%  ") =
  ["/usr/bin/env"; "FOO=1"; "gimp-2.10"; "--x"].
Proof. vm_compute. reflexivity. Qed.

(** ** Removal *)

Lemma indexOf_from_absent i items item :
  Forall (fun it => addr it <> addr item) items -> indexOf_from i items item = -1.
Proof.
  intros H; revert i; induction H as [|it rest Hit _ IH]; intros i; simpl;
    [reflexivity|].
  destruct (Nat.eqb_spec (addr it) (addr item)); [contradiction | apply IH].
Qed.

(** C8. [removeApp] on a pointer that is not in the store does nothing: the
    model after the call is the model before it, so the store keeps its
    items and their order, and the trace gains no remove bracket, no
    [applicationRemoved] and no deletion. *)
Theorem removeApp_absent (item : LauncherItem) (m : LauncherModel) :
  Forall (fun it => addr it <> addr item) (m_items m) ->
  removeApp item m = m /\
  m_items (removeApp item m) = m_items m /\
  effects (removeApp item m) = effects m.
Proof.
  intros Habs.
  assert (H : removeApp item m = m).
  { unfold removeApp, indexOf. now rewrite (indexOf_from_absent 0 _ _ Habs). }
  rewrite H. auto.
Qed.

Lemma removeApp_absent_witness :
  let m := mkModel [files_item 0; files_item 1] [] NormalMode 2 [] in
  Forall (fun it => addr it <> addr (files_item 2)) (m_items m) /\
  removeApp (files_item 2) m = m.
Proof.
  intros m.
  assert (H : Forall (fun it => addr it <> addr (files_item 2)) (m_items m))
    by (repeat constructor; simpl; lia).
  split; [exact H | exact (proj1 (removeApp_absent (files_item 2) m H))].
Defined.

(** A pointer that is in the store is taken out, between the two remove
    signals, announced and scheduled for deletion. *)
Example removeApp_present :
  let m := mkModel [files_item 0; files_item 1] [] NormalMode 2 [] in
  m_items (removeApp (files_item 1) m) = [files_item 0] /\
  effects (removeApp (files_item 1) m) =
    [Emit (rowsAboutToBeRemoved 1 1); QDebug "removed: " "Files";
     Emit (rowsRemoved 1 1); Emit countChanged;
     Emit (applicationRemoved (files_item 1)); DeleteLater (files_item 1)].
Proof. split; vm_compute; reflexivity. Qed.

(** ** Launch *)

Lemma has_args_addApp e fileName m :
  has_args (m_items m) -> has_args (m_items (addApp e fileName m)).
Proof.
  unfold has_args. intros Hm.
  destruct (addApp_cases e fileName m) as [->|(_ & item & -> & _ & _ & _ & _ & Hargs)];
    [assumption|].
  apply Forall_app; split; [assumption|].
  constructor; [|constructor]. rewrite Hargs. apply exec_args_nonempty.
Qed.

(** On every model that a run of operations produces, [launch] returns:
    the items of the store all have a first launch argument. *)
Lemma launch_returns ops m sd path :
  run ops LauncherModel_new = Some m -> is_Some (launch sd path m).
Proof.
  intros Hrun.
  assert (Hargs : has_args (m_items m)).
  { apply (run_preserves has_args (submseteq_Forall _) has_args_addApp
             ops LauncherModel_new m (Forall_nil_2 _) Hrun). }
  unfold launch. destruct (findById m path =? -1) eqn:Hfind; cbn [negb]; [eauto|].
  apply Z.eqb_neq in Hfind.
  destruct (findById_from_range 0 (m_items m) path) as [H|H];
    unfold findById in *; [lia | contradiction |].
  unfold QList_at. destruct (Z.leb_spec 0 (findById_from 0 (m_items m) path)); [|lia].
  destruct (m_items m !! Z.to_nat (findById_from 0 (m_items m) path))
    as [item|] eqn:Hitem.
  - assert (Hin : item ∈ m_items m) by (eapply list_elem_of_lookup_2, Hitem).
    unfold has_args in Hargs. rewrite Forall_forall in Hargs.
    specialize (Hargs _ Hin). destruct (args item); [contradiction | eauto].
  - exfalso. apply lookup_ge_None in Hitem. lia.
Qed.

(** C9. [launch] on a path that is the id of no store item answers false,
    starts nothing and leaves the model as it is. When the store has an item
    with that id (the first such item, whose launch arguments are [cmd]
    followed by [rest]), the process has [cmd] as its program and [rest] as
    its arguments, except that for cutefish-screenshot the arguments are
    -d 200; the launch is announced, the process is started detached, and
    the answer is the outcome of that start. *)
Theorem launch_outcome (sd : QProcess -> bool) (path : string) (m : LauncherModel) :
  (path ∉ ids m -> launch sd path m = Some (false, m)) /\
  (forall pre item post cmd rest,
     m_items m = pre ++ item :: post ->
     path ∉ (id <$> pre) ->
     id item = path ->
     args item = cmd :: rest ->
     let p := launched_process cmd rest in
     program p = cmd /\
     arguments p = (if decide (cmd = "cutefish-screenshot") then ["-d"; "200"] else rest) /\
     launch sd path m =
       Some (sd p, with_effect (emit applicationLaunched m) (StartDetached p))).
Proof.
  split.
  - intros Habs. apply findById_absent in Habs.
    unfold launch. now rewrite Habs.
  - intros pre item post cmd rest Hitems Hpre Hid Hargs p.
    split; [reflexivity|]. split; [reflexivity|].
    unfold launch, findById. rewrite Hitems.
    rewrite (findById_from_first 0 pre item post path Hpre Hid).
    assert (Hne : (0 + Z.of_nat (length pre) =? -1) = false) by (apply Z.eqb_neq; lia).
    rewrite Hne. cbn [negb]. unfold QList_at.
    destruct (Z.leb_spec 0 (0 + Z.of_nat (length pre))); [|lia].
    replace (Z.to_nat (0 + Z.of_nat (length pre))) with (length pre) by lia.
    rewrite list_lookup_middle by reflexivity. rewrite Hargs.
    subst p. unfold launched_process.
    destruct (String.eqb_spec cmd "cutefish-screenshot") as [->|Hcmd].
    + reflexivity.
    + destruct (decide (cmd = "cutefish-screenshot")); [contradiction|reflexivity].
Qed.

Example launch_screenshot :
  let item := mkItem 0 "/usr/share/applications/cutefish-screenshot.desktop"
                "Screenshot" "" "" "" ["cutefish-screenshot"; "--gui"] in
  let m := mkModel [files_item 1; item] [] NormalMode 2 [] in
  launch (fun _ => true) (id item) m =
    Some (true,
          with_effect (emit applicationLaunched m)
            (StartDetached (mkProcess "/dev/null" true "cutefish-screenshot" ["-d"; "200"]))) /\
  launch (fun _ => false) files_desktop m =
    Some (false,
          with_effect (emit applicationLaunched m)
            (StartDetached (mkProcess "/dev/null" true "org.cutefish.filemanager" []))) /\
  launch (fun _ => true) "/usr/share/applications/absent.desktop" m = Some (false, m).
Proof. repeat split; vm_compute; reflexivity. Qed.

(** ** genericName and comment *)

Lemma generic_is_comment_addApp e fileName m :
  generic_is_comment (m_items m) -> generic_is_comment (m_items (addApp e fileName m)).
Proof.
  unfold generic_is_comment. intros Hm.
  destruct (addApp_cases e fileName m) as [->|(_ & item & -> & _ & _ & Hg & _)];
    [assumption|].
  apply Forall_app; split; [assumption|]. now repeat constructor.
Qed.

(** C10. The item [addApp] puts in the store has its genericName equal to
    its comment, both being the Comment value of the entry; and in every
    model that a run of operations produces, every store item has
    genericName equal to comment. *)
Theorem genericName_is_comment :
  (forall e fileName m item,
     m_items (addApp e fileName m) = m_items m ++ [item] ->
     genericName item = comment item /\
     comment item =
       QVar.toString (DesktopProperties.value (entry_file e fileName) "Comment")) /\
  (forall ops m,
     run ops LauncherModel_new = Some m ->
     Forall (fun it => genericName it = comment it) (m_items m)).
Proof.
  split.
  - intros e fileName m item Hitems.
    destruct (addApp_cases e fileName m) as [Heq|(_ & item' & Hitems' & _ & _ & Hg & Hc & _)].
    + rewrite Heq in Hitems. apply (f_equal length) in Hitems.
      rewrite length_app in Hitems. simpl in Hitems. lia.
    + rewrite Hitems' in Hitems. apply app_inj_tail in Hitems as [_ ->]. auto.
  - intros ops m.
    apply (run_preserves generic_is_comment (submseteq_Forall _)
             generic_is_comment_addApp).
    constructor.
Qed.

(** ** The scan *)

Lemma foldl_append_filter_map {A B} (f : A -> bool) (g : A -> B) (l : list A) acc :
  foldl (fun q x => if f x then q ++ [g x] else q) acc l =
  acc ++ (g <$> List.filter f l).
Proof.
  revert acc; induction l as [|x l IH]; intros acc; simpl.
  - now rewrite app_nil_r.
  - rewrite IH. destruct (f x); [|reflexivity].
    simpl. now rewrite <- app_assoc.
Qed.

Lemma foldl_append_ids (l : list LauncherItem) acc :
  foldl (fun acc item => acc ++ [id item]) acc l = acc ++ (id <$> l).
Proof.
  revert acc; induction l as [|x l IH]; intros acc; simpl.
  - now rewrite app_nil_r.
  - rewrite IH. simpl. now rewrite <- app_assoc.
Qed.

Lemma scan_entries_filter d :
  scan_entries d = List.filter (file_exists d) (dir_iterator d).
Proof.
  unfold scan_entries. generalize (dir_iterator d) as l.
  assert (H : forall l acc,
    foldl (fun allEntries fileName =>
             if negb (file_exists d fileName) then allEntries
             else allEntries ++ [fileName]) acc l =
    acc ++ List.filter (file_exists d) l).
  { induction l as [|x l IH]; intros acc; simpl.
    - now rewrite app_nil_r.
    - rewrite IH. destruct (file_exists d x); simpl; [|reflexivity].
      now rewrite <- app_assoc. }
  intros l. apply H.
Qed.

(** The paths the scan collects are those the iterator yields and that
    exist. *)
Lemma scan_entries_spec d f :
  f ∈ scan_entries d <-> f ∈ dir_iterator d /\ file_exists d f = true.
Proof.
  rewrite scan_entries_filter, !list_elem_of_In, filter_In. reflexivity.
Qed.

Lemma refresh_queue d m :
  refresh d m =
  (InvokeAddApp <$> filter (fun f => f ∉ ids m) (scan_entries d)) ++
  (InvokeRemoveApp <$> filter (fun it => id it ∉ scan_entries d) (m_items m)) ++
  [InvokeRefreshed].
Proof.
  unfold refresh. rewrite foldl_append_ids. cbn [app].
  rewrite !foldl_append_filter_map. cbn [app]. rewrite <- app_assoc.
  f_equal; [|f_equal]; f_equal; apply List_filter_stdpp; intros x;
    rewrite negb_true_iff; apply QStringList_contains_false.
Qed.

(** C5. With the store in state [m] and the entry files of [d] on disk, a
    refresh posts: an add for exactly the on-disk paths whose id is not in
    the store, then a remove for exactly the store items whose path is not
    on disk, then the completion signal, last and once. An item that is both
    in the store and on disk gets neither an add nor a remove. *)
Theorem refresh_requests (d : Disk) (m : LauncherModel) :
  let allEntries := scan_entries d in
  (forall f, f ∈ allEntries <-> f ∈ dir_iterator d /\ file_exists d f = true) /\
  refresh d m =
    (InvokeAddApp <$> filter (fun f => f ∉ ids m) allEntries) ++
    (InvokeRemoveApp <$> filter (fun it => id it ∉ allEntries) (m_items m)) ++
    [InvokeRefreshed] /\
  (forall f, InvokeAddApp f ∈ refresh d m <-> f ∈ allEntries /\ f ∉ ids m) /\
  (forall it, InvokeRemoveApp it ∈ refresh d m <->
              it ∈ m_items m /\ id it ∉ allEntries) /\
  (forall it, it ∈ m_items m -> id it ∈ allEntries ->
              (InvokeAddApp (id it) ∉ refresh d m) /\
              (InvokeRemoveApp it ∉ refresh d m)).
Proof.
  intros allEntries.
  assert (Hadd : forall f, InvokeAddApp f ∈ refresh d m <->
                           f ∈ allEntries /\ f ∉ ids m).
  { intros f. rewrite refresh_queue, !elem_of_app, !list_elem_of_fmap. split.
    - intros [(x & [= ->] & Hx)|[(x & [=] & _)|Hx]].
      + apply list_elem_of_filter in Hx as [? ?]. auto.
      + apply list_elem_of_singleton in Hx. discriminate.
    - intros [Hf Hn]. left. exists f. split; [reflexivity|].
      apply list_elem_of_filter. auto. }
  assert (Hrem : forall it, InvokeRemoveApp it ∈ refresh d m <->
                            it ∈ m_items m /\ id it ∉ allEntries).
  { intros it. rewrite refresh_queue, !elem_of_app, !list_elem_of_fmap. split.
    - intros [(x & [=] & _)|[(x & [= ->] & Hx)|Hx]].
      + apply list_elem_of_filter in Hx as [? ?]. auto.
      + apply list_elem_of_singleton in Hx. discriminate.
    - intros [Hf Hn]. right; left. exists it. split; [reflexivity|].
      apply list_elem_of_filter. auto. }
  split; [apply scan_entries_spec|]. split; [apply refresh_queue|].
  split; [exact Hadd|]. split; [exact Hrem|].
  intros it Hit Hdisk. split.
  - rewrite Hadd. intros [_ Hn]. apply Hn. now apply list_elem_of_fmap_2.
  - rewrite Hrem. intros [_ Hn]. contradiction.
Qed.

Example refresh_example :
  let d := mkDisk ["/a.desktop"; "/b.desktop"; "/gone.desktop"]
                  (fun f => negb (String.eqb f "/gone.desktop")) in
  let kept := mkItem 0 "/a.desktop" "A" "" "" "" ["a"] in
  let stale := mkItem 1 "/old.desktop" "Old" "" "" "" ["old"] in
  refresh d (mkModel [kept; stale] [] NormalMode 2 []) =
  [InvokeAddApp "/b.desktop"; InvokeRemoveApp stale; InvokeRefreshed].
Proof. vm_compute. reflexivity. Qed.

(** ** Sorting on refresh *)

Lemma name_less_asym a b : name_less a b = true -> name_less b a = false.
Proof.
  unfold name_less, String.ltb. rewrite (String.compare_antisym (name b)).
  now destruct (String.compare (name a) (name b)).
Qed.

Lemma not_after_name_leb a b :
  not_after name_less a b -> String.leb (name a) (name b) = true.
Proof.
  unfold not_after, name_less, String.ltb, String.leb.
  rewrite (String.compare_antisym (name b)).
  now destruct (String.compare (name a) (name b)).
Qed.

Lemma Sorted_adjacent {A} (R : A -> A -> Prop) (l : list A) i a b :
  Sorted R l -> l !! i = Some a -> l !! S i = Some b -> R a b.
Proof.
  intros Hl; revert i; induction Hl as [|x l Hl IH Hhd]; intros i Ha Hb;
    [discriminate|].
  destruct i as [|i]; simpl in *.
  - injection Ha as ->. destruct Hhd as [|y l Hxy]; [discriminate|].
    simpl in Hb. now injection Hb as ->.
  - eapply IH; eassumption.
Qed.

Lemma refreshed_items m :
  m_items (refreshed m) = std_sort name_less (m_items m).
Proof.
  unfold refreshed, on_refreshed.
  rewrite m_items_emit. cbn [m_items with_items]. now rewrite !m_items_emit.
Qed.

(** C6. After the handler of the refresh-completed signal has run, every
    two adjacent items of the store have names in ascending order (the
    earlier name less than or equal to the later one, in the order of
    [QString]'s comparison), and the store is a permutation of the store
    before it: the same items, each as often as before. *)
Theorem refreshed_sorts_by_name (m : LauncherModel) :
  (forall i a b,
     m_items (refreshed m) !! i = Some a ->
     m_items (refreshed m) !! S i = Some b ->
     String.leb (name a) (name b) = true) /\
  m_items (refreshed m) ≡ₚ m_items m.
Proof.
  rewrite refreshed_items. split.
  - intros i a b Ha Hb. apply not_after_name_leb.
    eapply Sorted_adjacent; [|exact Ha|exact Hb].
    apply std_sort_sorted, name_less_asym.
  - apply std_sort_perm.
Qed.

Example refreshed_example :
  let it (a : nat) (n : string) := mkItem a ("/" +:+ n) n "" "" "" [n] in
  m_items (refreshed (mkModel [it 0%nat "gimp"; it 1%nat "Files"; it 2%nat "calc"; it 3%nat "Editor"]
                              [] NormalMode 4 [])) =
  [it 3%nat "Editor"; it 1%nat "Files"; it 2%nat "calc"; it 0%nat "gimp"].
Proof. vm_compute. reflexivity. Qed.

(** * Further properties of the model *)

(** ** Lookup by id *)

Lemma findById_from_split i items key :
  findById_from i items key <> -1 ->
  exists pre item post,
    items = pre ++ item :: post /\ (key ∉ (id <$> pre)) /\ id item = key.
Proof.
  revert i; induction items as [|x l IH]; intros i H; simpl in H; [congruence|].
  destruct (String.eqb_spec (id x) key) as [Heq|Hne].
  - exists [], x, l. split; [reflexivity|]. split; [apply not_elem_of_nil | exact Heq].
  - destruct (IH _ H) as (pre & item & post & -> & Hpre & Hid).
    exists (x :: pre), item, post. split; [reflexivity|]. split; [|exact Hid].
    rewrite fmap_cons. apply not_elem_of_cons; split; [congruence | exact Hpre].
Qed.

(** X1. [findById] answers [-1] exactly for an id that no store item has;
    any other answer is the position of the first item with that id, a
    position inside the store at which [at] finds that item. *)
Theorem findById_first (m : LauncherModel) (key : string) :
  (findById m key = -1 <-> key ∉ ids m) /\
  (findById m key <> -1 ->
   exists pre item post,
     m_items m = pre ++ item :: post /\
     (key ∉ (id <$> pre)) /\
     id item = key /\
     findById m key = Z.of_nat (length pre) /\
     0 <= findById m key < Z.of_nat (length (m_items m)) /\
     QList_at (m_items m) (findById m key) = Some item).
Proof.
  split; [apply findById_absent|].
  intros Hne. unfold findById in *.
  destruct (findById_from_split _ _ _ Hne) as (pre & item & post & Hl & Hpre & Hid).
  exists pre, item, post. rewrite Hl.
  rewrite (findById_from_first 0 pre item post key Hpre Hid).
  repeat split; try assumption; try lia.
  - rewrite length_app. simpl. lia.
  - unfold QList_at. destruct (Z.leb_spec 0 (0 + Z.of_nat (length pre))); [|lia].
    replace (Z.to_nat (0 + Z.of_nat (length pre))) with (length pre) by lia.
    now apply list_lookup_middle.
Qed.

(** ** The dock *)

(** X2. [sendToDock] and [removeFromDock] post one call to the dock, add
    or remove with the key as its argument, when the key is the id of a
    store item, and do nothing at all for any other key; neither changes the
    store. *)
Theorem dock_calls (key : string) (m : LauncherModel) :
  (key ∈ ids m ->
   sendToDock key m = with_effect m (DBusAsyncCall "add" key) /\
   removeFromDock key m = with_effect m (DBusAsyncCall "remove" key)) /\
  (key ∉ ids m -> sendToDock key m = m /\ removeFromDock key m = m) /\
  m_items (sendToDock key m) = m_items m /\
  m_items (removeFromDock key m) = m_items m.
Proof.
  unfold sendToDock, removeFromDock.
  destruct (findById m key =? -1) eqn:E; cbn [negb].
  - apply Z.eqb_eq, findById_absent in E.
    split; [intros Hin; contradiction|]. auto.
  - apply Z.eqb_neq in E.
    split; [auto|]. split; [|auto].
    intros Hn. apply findById_absent in Hn. contradiction.
Qed.

(** ** Move *)

Lemma QList_move_result {A} (from to : Z) (l l' : list A) :
  QList_move from to l = Some l' ->
  length l' = length l /\
  l' !! Z.to_nat to = l !! Z.to_nat from /\
  delete (Z.to_nat to) l' = delete (Z.to_nat from) l.
Proof.
  unfold QList_move. case_match eqn:E; [|discriminate].
  destruct (l !! Z.to_nat from) as [x|] eqn:Hx; [|discriminate].
  intros [= <-].
  assert (Hfrom : (Z.to_nat from < length l)%nat) by (eapply lookup_lt_Some, Hx).
  assert (Hto : (Z.to_nat to < length l)%nat) by lia.
  set (d := delete (Z.to_nat from) l).
  assert (Hd : length d = (length l - 1)%nat) by (unfold d; now rewrite length_delete).
  assert (Htake : length (take (Z.to_nat to) d) = Z.to_nat to)
    by (rewrite length_take; lia).
  split; [|split].
  - rewrite length_app. simpl. rewrite Htake, length_drop. lia.
  - rewrite <- Htake at 1. now rewrite list_lookup_middle.
  - rewrite <- Htake at 1. rewrite delete_middle. apply take_drop.
Qed.

Lemma int_wrap_range z : - 2 ^ 31 <= int_wrap z < 2 ^ 31.
Proof.
  unfold int_wrap. pose proof (Z.mod_pos_bound (z + 2 ^ 31) (2 ^ 32)). lia.
Qed.

Lemma int_wrap_small z : - 2 ^ 31 <= z < 2 ^ 31 -> int_wrap z = z.
Proof. intros Hz. unfold int_wrap. rewrite Z.mod_small; lia. Qed.

(** X3. [move] with equal page-relative indices does nothing, whatever the
    page. Otherwise it returns exactly when both absolute indices, index +
    page * pageCount in the 32-bit arithmetic of [int] (which wraps
    around), are inside the store, and then: the item that was at the
    source index is at the target index, the other items keep their
    relative order, the store has the same items, and no signal is emitted
    (the trace, the overlay and the mode are untouched). Where nothing
    overflows the absolute index is the plain sum. *)
Theorem move_outcome (from to page pageCount : Z) (m : LauncherModel) :
  (from = to -> move from to page pageCount m = Some m) /\
  (from <> to ->
   (is_Some (move from to page pageCount m) <->
    0 <= int_add from (int_mul page pageCount) < Z.of_nat (length (m_items m)) /\
    0 <= int_add to (int_mul page pageCount) < Z.of_nat (length (m_items m)))) /\
  (forall m',
     from <> to ->
     move from to page pageCount m = Some m' ->
     m_items m' !! Z.to_nat (int_add to (int_mul page pageCount)) =
       m_items m !! Z.to_nat (int_add from (int_mul page pageCount)) /\
     delete (Z.to_nat (int_add to (int_mul page pageCount))) (m_items m') =
       delete (Z.to_nat (int_add from (int_mul page pageCount))) (m_items m) /\
     m_items m' ≡ₚ m_items m /\
     effects m' = effects m /\
     m_searchItems m' = m_searchItems m /\
     m_mode m' = m_mode m) /\
  (forall index,
     - 2 ^ 31 <= page * pageCount < 2 ^ 31 ->
     - 2 ^ 31 <= index + page * pageCount < 2 ^ 31 ->
     int_add index (int_mul page pageCount) = index + page * pageCount).
Proof.
  split; [|split; [|split]].
  - intros ->. unfold move. now rewrite Z.eqb_refl.
  - intros Hne. unfold move. apply Z.eqb_neq in Hne. rewrite Hne.
    rewrite <- QList_move_defined.
    destruct (QList_move _ _ _); split; intros [? H]; try discriminate; eauto.
  - intros m' Hne Hmove. unfold move in Hmove. apply Z.eqb_neq in Hne.
    rewrite Hne in Hmove.
    destruct (QList_move _ _ _) as [l|] eqn:Hl; [|discriminate].
    injection Hmove as <-. cbn [m_items with_items effects m_searchItems m_mode].
    destruct (QList_move_result _ _ _ _ Hl) as (_ & Hat & Hdel).
    repeat split; try assumption. eapply QList_move_perm, Hl.
  - intros index Hp Hi. unfold int_add, int_mul.
    rewrite (int_wrap_small _ Hp). now apply int_wrap_small.
Qed.

Example move_example :
  let m := mkModel [files_item 0; files_item 1; files_item 2; files_item 3]
                   [] NormalMode 4 [] in
  (m_items <$> move 0 1 1 2 m) =
    Some [files_item 0; files_item 1; files_item 3; files_item 2] /\
  move 0 1 2 2 m = None /\
  move 1 1 9 9 m = Some m /\
  (m_items <$> move 0 1 65536 65536 m) =
    Some [files_item 1; files_item 0; files_item 2; files_item 3].
Proof. repeat split; vm_compute; reflexivity. Qed.

(** ** Removal of a store item *)

Lemma indexOf_from_first i pre it post item :
  Forall (fun x => addr x <> addr item) pre ->
  addr it = addr item ->
  indexOf_from i (pre ++ it :: post) item = i + Z.of_nat (length pre).
Proof.
  intros Hpre Hit; revert i; induction Hpre as [|x pre Hx _ IH]; intros i; simpl.
  - rewrite Hit, Nat.eqb_refl. lia.
  - destruct (Nat.eqb_spec (addr x) (addr item)); [contradiction|].
    rewrite IH. lia.
Qed.

(** The model [removeApp] returns for a pointer of the store, written
    out. *)
Lemma removeApp_split item m pre it post :
  m_items m = pre ++ it :: post ->
  Forall (fun x => addr x <> addr item) pre ->
  addr it = addr item ->
  removeApp item m =
  mkModel (pre ++ post) (m_searchItems m) (m_mode m) (next_addr m)
    (effects m ++
     [Emit (rowsAboutToBeRemoved (Z.of_nat (length pre)) (Z.of_nat (length pre)));
      QDebug "removed: " (name item);
      Emit (rowsRemoved (Z.of_nat (length pre)) (Z.of_nat (length pre)));
      Emit countChanged;
      Emit (applicationRemoved item);
      DeleteLater item]).
Proof.
  intros Hl Hpre Hit. unfold removeApp, indexOf. rewrite Hl.
  rewrite (indexOf_from_first 0 pre it post item Hpre Hit).
  destruct (Z.ltb_spec (0 + Z.of_nat (length pre)) 0); [lia|].
  replace (0 + Z.of_nat (length pre)) with (Z.of_nat (length pre)) by lia.
  unfold emit, with_effect, with_items. cbn.
  rewrite Hl, Nat2Z.id, delete_middle.
  f_equal. now rewrite <- !app_assoc.
Qed.

(** X4. [removeApp] on a pointer the store holds takes out the first
    store entry with that pointer and nothing else, the other items keeping
    their order; the trace gains, in this order, the begin-remove signal
    for that row, the debug line, the end-remove signal with the count
    change, [applicationRemoved] and the deferred deletion. The search
    overlay and the mode are left as they are. *)
Theorem removeApp_removes (item : LauncherItem) (m : LauncherModel)
    (pre post : list LauncherItem) (it : LauncherItem) :
  m_items m = pre ++ it :: post ->
  Forall (fun x => addr x <> addr item) pre ->
  addr it = addr item ->
  m_items (removeApp item m) = pre ++ post /\
  effects (removeApp item m) =
    effects m ++
    [Emit (rowsAboutToBeRemoved (Z.of_nat (length pre)) (Z.of_nat (length pre)));
     QDebug "removed: " (name item);
     Emit (rowsRemoved (Z.of_nat (length pre)) (Z.of_nat (length pre)));
     Emit countChanged;
     Emit (applicationRemoved item);
     DeleteLater item] /\
  m_searchItems (removeApp item m) = m_searchItems m /\
  m_mode (removeApp item m) = m_mode m.
Proof.
  intros Hl Hpre Hit. rewrite (removeApp_split item m pre it post Hl Hpre Hit).
  repeat split; reflexivity.
Qed.

Lemma removeApp_removes_witness :
  let m := mkModel [files_item 0; files_item 1] [] NormalMode 2 [] in
  m_items (removeApp (files_item 1) m) = [files_item 0] ++ [].
Proof.
  intros m.
  refine (proj1 (removeApp_removes (files_item 1) m [files_item 0] []
                   (files_item 1) eq_refl _ eq_refl)).
  repeat constructor. simpl. lia.
Defined.

(** ** Acceptance of an entry *)

Lemma addApp_present e fileName m :
  fileName ∈ ids m -> addApp e fileName m = m.
Proof.
  intros Hin. unfold addApp.
  destruct (findById m fileName =? -1) eqn:Hfind; [|reflexivity].
  apply Z.eqb_eq, findById_absent in Hfind. contradiction.
Qed.

(** The model [addApp] returns for an accepted entry, written out. *)
Lemma addApp_accepted e fileName m :
  accepted e fileName m ->
  let desktop := entry_file e fileName in
  let localized :=
    QVar.toString
      (DesktopProperties.value desktop ("Name[" +:+ locale_name e +:+ "]")) in
  let item :=
    mkItem (next_addr m) fileName
      (if QString.isEmpty localized
       then QVar.toString (DesktopProperties.value desktop "Name")
       else localized)
      (QVar.toString (DesktopProperties.value desktop "Comment"))
      (QVar.toString (DesktopProperties.value desktop "Comment"))
      (QVar.toString (DesktopProperties.value desktop "Icon"))
      (exec_args (QVar.toString (DesktopProperties.value desktop "Exec"))) in
  let n := Z.of_nat (length (m_items m)) in
  addApp e fileName m =
  mkModel (m_items m ++ [item]) (m_searchItems m) (m_mode m) (S (next_addr m))
          (effects m ++
           [Emit (rowsAboutToBeInserted n n); QDebug "added: " (name item);
            Emit (rowsInserted n n); Emit countChanged]).
Proof.
  intros (Hfind & Hterm & Honly & Hnd & Hh) desktop localized item n.
  subst n item localized desktop. unfold addApp.
  rewrite Hfind, Z.eqb_refl, Hterm, andb_false_r, Hnd, Hh. cbn [negb orb].
  assert (Hguard : DesktopProperties.contains (entry_file e fileName) "OnlyShowIn" &&
                   negb (QStringList_contains
                           (QString.split ";"
                              (QVar.toString
                                 (DesktopProperties.value (entry_file e fileName)
                                    "OnlyShowIn")))
                           (detectDesktopEnvironment e)) = false).
  { destruct (DesktopProperties.contains (entry_file e fileName) "OnlyShowIn") eqn:Hc;
      [|reflexivity].
    now rewrite (Honly eq_refl). }
  rewrite Hguard. unfold emit, with_effect. cbn.
  f_equal. now rewrite <- !app_assoc.
Qed.

(** X5. [addApp] changes the store exactly when the entry passes every
    guard: the id is not in the store, Terminal is not true, the OnlyShowIn
    list (if the key is present) holds the environment identifier as
    written, and neither NoDisplay nor Hidden is true. *)
Theorem addApp_adds_iff (e : Env) (fileName : string) (m : LauncherModel) :
  m_items (addApp e fileName m) <> m_items m <-> accepted e fileName m.
Proof.
  split.
  - intros Hch. apply addApp_changed in Hch. exact Hch.
  - intros Hacc. rewrite (addApp_accepted e fileName m Hacc). cbn [m_items].
    intros Habs. apply (f_equal length) in Habs.
    rewrite length_app in Habs. simpl in Habs. lia.
Qed.

(** X6. An accepted entry is appended at the end of the store, the earlier
    items untouched: the new item has the file name as id and a pointer not
    handed out before, the name for the locale when the entry has a
    non-empty one and the default Name otherwise, the Icon value, and the
    normalised Exec as launch arguments. The insertion is bracketed in the
    trace by the begin-insert and end-insert signals for the row just past
    the old end, followed by the count change; overlay and mode are left as
    they are. *)
Theorem addApp_inserts (e : Env) (fileName : string) (m : LauncherModel) :
  accepted e fileName m ->
  exists item,
    m_items (addApp e fileName m) = m_items m ++ [item] /\
    addr item = next_addr m /\
    next_addr (addApp e fileName m) = S (next_addr m) /\
    id item = fileName /\
    name item =
      (let localized :=
         QVar.toString
           (DesktopProperties.value (entry_file e fileName)
              ("Name[" +:+ locale_name e +:+ "]")) in
       if QString.isEmpty localized
       then QVar.toString (DesktopProperties.value (entry_file e fileName) "Name")
       else localized) /\
    iconName item =
      QVar.toString (DesktopProperties.value (entry_file e fileName) "Icon") /\
    args item =
      exec_args (QVar.toString (DesktopProperties.value (entry_file e fileName) "Exec")) /\
    effects (addApp e fileName m) =
      effects m ++
      [Emit (rowsAboutToBeInserted (Z.of_nat (length (m_items m)))
                                   (Z.of_nat (length (m_items m))));
       QDebug "added: " (name item);
       Emit (rowsInserted (Z.of_nat (length (m_items m)))
                          (Z.of_nat (length (m_items m))));
       Emit countChanged] /\
    m_searchItems (addApp e fileName m) = m_searchItems m /\
    m_mode (addApp e fileName m) = m_mode m.
Proof.
  intros Hacc. rewrite (addApp_accepted e fileName m Hacc).
  eexists. cbn [m_items next_addr effects m_searchItems m_mode].
  split; [reflexivity|]. cbn. repeat split; reflexivity.
Qed.

Lemma files_entry_accepted :
  accepted (mkEnv "Cutefish" "en_US" (fun _ => files_entry)) files_desktop
           LauncherModel_new.
Proof. repeat split; try (vm_compute; reflexivity). intros H. vm_compute in H. discriminate. Defined.

Lemma addApp_inserts_witness :
  let e := mkEnv "Cutefish" "en_US" (fun _ => files_entry) in
  exists item,
    m_items (addApp e files_desktop LauncherModel_new) = [] ++ [item] /\
    addr item = 0%nat.
Proof.
  intros e.
  destruct (addApp_inserts e files_desktop LauncherModel_new files_entry_accepted)
    as (item & Hitems & Haddr & _).
  exists item. split; [exact Hitems | exact Haddr].
Defined.

(** X7. Adding the same file twice is adding it once: a second [addApp]
    of the file name in the same environment leaves the model of the first;
    and once the first has added the item, a second leaves the model as it
    is whatever the entry file has become. *)
Theorem addApp_twice (e : Env) (fileName : string) (m : LauncherModel) :
  addApp e fileName (addApp e fileName m) = addApp e fileName m /\
  (m_items (addApp e fileName m) <> m_items m ->
   forall e', addApp e' fileName (addApp e fileName m) = addApp e fileName m).
Proof.
  assert (Hadded : m_items (addApp e fileName m) <> m_items m ->
                   fileName ∈ ids (addApp e fileName m)).
  { intros Hch.
    destruct (addApp_cases e fileName m) as [Heq|(_ & item & Hitems & Hid & _)].
    - rewrite Heq in Hch. contradiction.
    - unfold ids. rewrite Hitems, fmap_app. apply elem_of_app; right.
      simpl. rewrite Hid. apply list_elem_of_singleton. reflexivity. }
  split.
  - destruct (addApp_cases e fileName m) as [Heq|(_ & item & Hitems & _)].
    + now rewrite !Heq.
    + apply addApp_present, Hadded. rewrite Hitems. intros Habs.
      apply (f_equal length) in Habs. rewrite length_app in Habs. simpl in Habs. lia.
  - intros Hch e'. now apply addApp_present, Hadded.
Qed.

Lemma findById_from_app i l l' key :
  0 <= i ->
  findById_from i (l ++ l') key =
  if decide (key ∈ (id <$> l)) then findById_from i l key
  else findById_from (i + Z.of_nat (length l)) l' key.
Proof.
  revert i; induction l as [|x l IH]; intros i Hi.
  - destruct (decide (key ∈ (id <$> ([] : list LauncherItem)))) as [Hin|_].
    + now apply elem_of_nil in Hin.
    + simpl. f_equal. lia.
  - cbn [app findById_from]. rewrite IH by lia. rewrite fmap_cons.
    destruct (String.eqb_spec (id x) key) as [Heq|Hne].
    + destruct (decide (key ∈ id x :: (id <$> l))) as [_|Hn]; [reflexivity|].
      exfalso. apply Hn. rewrite Heq. apply list_elem_of_here.
    + destruct (decide (key ∈ (id <$> l))) as [Hin|Hin];
        destruct (decide (key ∈ id x :: (id <$> l))) as [Hin'|Hin'].
      * reflexivity.
      * exfalso. apply Hin'. now apply list_elem_of_further.
      * apply elem_of_cons in Hin' as [Habs|Habs]; [congruence | contradiction].
      * cbn [length]. f_equal. lia.
Qed.

(** X8. After an accepted entry is added, [findById] finds its file name at
    the row just past the old end, and answers for every other id what it
    answered before. *)
Theorem addApp_then_findById (e : Env) (fileName : string) (m : LauncherModel) :
  accepted e fileName m ->
  findById (addApp e fileName m) fileName = Z.of_nat (length (m_items m)) /\
  (forall key, key <> fileName ->
     findById (addApp e fileName m) key = findById m key).
Proof.
  intros Hacc. pose proof Hacc as (Hfind & _).
  apply findById_absent in Hfind.
  rewrite (addApp_accepted e fileName m Hacc). unfold findById. cbn [m_items].
  split.
  - rewrite findById_from_app by lia. rewrite decide_False by exact Hfind.
    simpl. rewrite String.eqb_refl. lia.
  - intros key Hkey. rewrite findById_from_app by lia.
    destruct (decide (key ∈ (id <$> m_items m))) as [Hin|Hin]; [reflexivity|].
    simpl. destruct (String.eqb_spec fileName key) as [Heq|_]; [congruence|].
    symmetry. now apply findById_absent.
Qed.

Lemma addApp_then_findById_witness :
  let e := mkEnv "Cutefish" "en_US" (fun _ => files_entry) in
  findById (addApp e files_desktop LauncherModel_new) files_desktop = 0.
Proof.
  intros e.
  exact (proj1 (addApp_then_findById e files_desktop LauncherModel_new
                  files_entry_accepted)).
Defined.

(** ** The environment identifier *)

Lemma toUpper_toUpper_char c : QChar.toUpper (QChar.toUpper c) = QChar.toUpper c.
Proof. destruct c as [[] [] [] [] [] [] [] []]; reflexivity. Qed.

Lemma toUpper_toUpper s : QString.toUpper (QString.toUpper s) = QString.toUpper s.
Proof.
  unfold QString.toUpper. induction s as [|c s IH]; simpl; [reflexivity|].
  now rewrite toUpper_toUpper_char, IH.
Qed.

(** X9. The environment identifier is never empty and has no lower-case
    letter left (upper-casing it again changes nothing): it is the
    upper-cased XDG_CURRENT_DESKTOP when that is set, else UNKNOWN. *)
Theorem detectDesktopEnvironment_upper (e : Env) :
  detectDesktopEnvironment e <> EmptyString /\
  QString.toUpper (detectDesktopEnvironment e) = detectDesktopEnvironment e /\
  (XDG_CURRENT_DESKTOP e = EmptyString -> detectDesktopEnvironment e = "UNKNOWN") /\
  (XDG_CURRENT_DESKTOP e <> EmptyString ->
   detectDesktopEnvironment e = QString.toUpper (XDG_CURRENT_DESKTOP e)).
Proof.
  unfold detectDesktopEnvironment.
  destruct (XDG_CURRENT_DESKTOP e) as [|c s]; cbn [QString.isEmpty negb].
  - repeat split; try reflexivity; try discriminate. intros H; contradiction.
  - repeat split; try discriminate.
    + apply toUpper_toUpper.
Qed.

Lemma detectDesktopEnvironment_shape e :
  detectDesktopEnvironment e <> EmptyString /\
  QString.toUpper (detectDesktopEnvironment e) = detectDesktopEnvironment e.
Proof.
  unfold detectDesktopEnvironment.
  destruct (XDG_CURRENT_DESKTOP e) as [|c s]; cbn [QString.isEmpty negb].
  - split; [discriminate | reflexivity].
  - split; [discriminate | apply toUpper_toUpper].
Qed.

(** X10. The OnlyShowIn elements are compared as written with the
    upper-cased identifier: an entry whose declared list has only empty
    elements and elements with a lower-case letter (elements that
    upper-casing changes) is never added, in any environment. *)
Theorem addApp_OnlyShowIn_verbatim (e : Env) (fileName : string) (m : LauncherModel) :
  DesktopProperties.contains (entry_file e fileName) "OnlyShowIn" = true ->
  (forall x,
     x ∈ QString.split ";"
           (QVar.toString
              (DesktopProperties.value (entry_file e fileName) "OnlyShowIn")) ->
     x = EmptyString \/ QString.toUpper x <> x) ->
  addApp e fileName m = m.
Proof.
  intros Hdecl Hlist.
  destruct (addApp_cases e fileName m) as [Heq|(_ & item & Hitems & _)];
    [exact Heq|].
  exfalso.
  assert (Hch : m_items (addApp e fileName m) <> m_items m).
  { rewrite Hitems. intros Habs. apply (f_equal length) in Habs.
    rewrite length_app in Habs. simpl in Habs. lia. }
  apply addApp_changed in Hch as (_ & _ & Hshow & _).
  apply Hshow, QStringList_contains_spec, Hlist in Hdecl.
  destruct (detectDesktopEnvironment_shape e) as [Hne Hup].
  destruct Hdecl; contradiction.
Qed.

Lemma addApp_OnlyShowIn_verbatim_witness :
  let e := mkEnv "Cutefish" "en_US"
                 (fun _ => <["OnlyShowIn" := "Cutefish;"]> files_entry) in
  addApp e files_desktop LauncherModel_new = LauncherModel_new.
Proof.
  intros e.
  apply (addApp_OnlyShowIn_verbatim e files_desktop LauncherModel_new).
  - vm_compute. reflexivity.
  - intros x Hx. vm_compute in Hx.
    apply elem_of_cons in Hx as [->|Hx]; [right; vm_compute; discriminate|].
    apply list_elem_of_singleton in Hx as ->. now left.
Defined.

(** ** Launch arguments *)

Lemma has_char_cons c x s : has_char c (String x s) <-> c = x \/ has_char c s.
Proof. unfold has_char. simpl. apply elem_of_cons. Qed.

Lemma has_char_nil c : ~ has_char c EmptyString.
Proof. unfold has_char. simpl. apply not_elem_of_nil. Qed.

Lemma remove_char_chars x s c :
  has_char c (QString.remove_char x s) -> has_char c s /\ c <> x.
Proof.
  induction s as [|y s IH]; simpl; [intros H; now apply has_char_nil in H|].
  destruct (Ascii.eqb_spec y x) as [->|Hne].
  - intros H. destruct (IH H) as [? ?]. split; [apply has_char_cons; auto | assumption].
  - intros [->|H]%has_char_cons.
    + split; [apply has_char_cons; auto | assumption].
    + destruct (IH H) as [? ?]. split; [apply has_char_cons; auto | assumption].
Qed.

Lemma simplified_from_chars q s c :
  has_char c (QString.simplified_from q s) ->
  c = " "%char \/ (has_char c s /\ QChar.isSpace c = false).
Proof.
  revert q; induction s as [|y s IH]; intros q; simpl;
    [intros H; now apply has_char_nil in H|].
  destruct (QChar.isSpace y) eqn:Hy.
  - intros H. destruct (IH _ H) as [?|[? ?]]; [now left|].
    right. split; [apply has_char_cons; auto | assumption].
  - assert (Hstep : has_char c (String y (QString.simplified_from QString.InWord s)) ->
                    c = " "%char \/ (has_char c (String y s) /\ QChar.isSpace c = false)).
    { intros [->|H]%has_char_cons.
      - right. split; [apply has_char_cons; auto | assumption].
      - destruct (IH _ H) as [?|[? ?]]; [now left|].
        right. split; [apply has_char_cons; auto | assumption]. }
    destruct q; try exact Hstep.
    intros [->|H]%has_char_cons; [now left | now apply Hstep].
Qed.

Lemma split_chars sep s a c :
  a ∈ QString.split sep s -> has_char c a -> has_char c s /\ c <> sep.
Proof.
  revert a; induction s as [|y s IH]; intros a; simpl.
  - intros ->%list_elem_of_singleton H. now apply has_char_nil in H.
  - destruct (Ascii.eqb_spec y sep) as [->|Hne].
    + intros [->|Ha]%elem_of_cons H; [now apply has_char_nil in H|].
      destruct (IH _ Ha H) as [? ?]. split; [apply has_char_cons; auto | assumption].
    + destruct (QString.split sep s) as [|w ws] eqn:Hs.
      * now destruct (exec_split_nonempty sep s).
      * intros [->|Ha]%elem_of_cons H.
        -- apply has_char_cons in H as [->|H].
           ++ split; [apply has_char_cons; auto | assumption].
           ++ destruct (IH w (list_elem_of_here _ _) H) as [? ?].
              split; [apply has_char_cons; auto | assumption].
        -- destruct (IH a (list_elem_of_further _ _ _ Ha) H) as [? ?].
           split; [apply has_char_cons; auto | assumption].
Qed.

(** The parts of a simplified text: after any start state, the text holds
    no empty word except, possibly, as its only content. *)
Lemma simplified_from_parts s q :
  match q with
  | QString.AtStart =>
      QString.simplified_from q s = EmptyString \/
      Forall (fun w => w <> EmptyString) (QString.split " " (QString.simplified_from q s))
  | QString.InWord =>
      Forall (fun w => w <> EmptyString)
             (tail (QString.split " " (QString.simplified_from q s)))
  | QString.AfterSpace =>
      QString.simplified_from q s = EmptyString \/
      exists t, QString.simplified_from q s = String " " t /\
                Forall (fun w => w <> EmptyString) (QString.split " " t)
  end.
Proof.
  revert q; induction s as [|y s IH]; intros q.
  - destruct q; simpl; auto.
  - assert (Hword : QChar.isSpace y = false ->
              Forall (fun w => w <> EmptyString)
                (QString.split " " (String y (QString.simplified_from QString.InWord s)))).
    { intros Hy. specialize (IH QString.InWord). cbn [QString.split].
      destruct (Ascii.eqb_spec y " ") as [->|_]; [discriminate Hy|].
      destruct (QString.split " " (QString.simplified_from QString.InWord s))
        as [|w ws]; [repeat constructor; discriminate|].
      simpl in IH. constructor; [discriminate | exact IH]. }
    cbn [QString.simplified_from]. destruct (QChar.isSpace y) eqn:Hy.
    + destruct q.
      * apply (IH QString.AtStart).
      * destruct (IH QString.AfterSpace) as [->|(t & -> & Ht)]; [constructor|].
        cbn [QString.split]. rewrite Ascii.eqb_refl. exact Ht.
      * apply (IH QString.AfterSpace).
    + destruct q.
      * right. now apply Hword.
      * apply Forall_tail. now apply Hword.
      * right. eexists; split; [reflexivity | now apply Hword].
Qed.

(** X11. The launch arguments [addApp] derives from any Exec text: there
    is always at least one; no argument holds a white-space character or a
    double quote; and an empty argument occurs only as the single argument
    of a command with no text left (then the program of [launch] is the
    empty name). *)
Theorem exec_args_clean (appExec : string) :
  exec_args appExec <> [] /\
  (forall a c, a ∈ exec_args appExec -> has_char c a ->
               QChar.isSpace c = false /\ c <> "034"%char) /\
  (EmptyString ∈ exec_args appExec -> exec_args appExec = [EmptyString]).
Proof.
  split; [apply exec_args_nonempty|]. unfold exec_args. split.
  - intros a c Ha Hc.
    destruct (split_chars _ _ _ _ Ha Hc) as [Hin Hsp].
    apply simplified_from_chars in Hin as [->|[Hin Hns]]; [contradiction|].
    apply remove_char_chars in Hin as [_ Hq]. auto.
  - intros Hin. unfold QString.simplified in *.
    destruct (simplified_from_parts
                (QString.remove_char "034"
                   (QString.remove_leading_quote (QString.remove_percent_any appExec)))
                QString.AtStart) as [->|Hall]; [reflexivity|].
    rewrite Forall_forall in Hall. now destruct (Hall _ Hin).
Qed.

Example exec_args_blank :
  exec_args "" = [EmptyString] /\ exec_args "  %U  " = [EmptyString] /\
  exec_args "a  b %" = ["a"; "b"; "%"].
Proof. repeat split; vm_compute; reflexivity. Qed.

(** ** More on search *)

Lemma caseless_isEmpty k1 k2 :
  caseless k1 k2 -> QString.isEmpty k1 = QString.isEmpty k2.
Proof. now destruct 1. Qed.

Lemma search_match_key u k1 k2 item :
  caseFolded u k1 = caseFolded u k2 ->
  QString.isEmpty k1 = QString.isEmpty k2 ->
  search_match u k1 item = search_match u k2 item.
Proof.
  intros Hf He. unfold search_match, QString.contains. now rewrite Hf, He.
Qed.

(** X12. The case of the letters of the search key does not count: two
    ASCII keys that differ in the case of letters only (as the alphabet
    pairs them) give the very same model, on any store, under every case
    folding that folds ASCII text as Unicode does. *)
Theorem search_key_case (u : CaseFolding) (k1 k2 : string) (m : LauncherModel) :
  folds_ascii u -> is_ascii k1 -> is_ascii k2 -> caseless k1 k2 ->
  search u k1 m = search u k2 m.
Proof.
  intros Hu H1 H2 Hk.
  assert (Hf : caseFolded u k1 = caseFolded u k2)
    by (rewrite (Hu _ H1), (Hu _ H2); now apply caseless_toLower).
  pose proof (caseless_isEmpty _ _ Hk) as He.
  assert (Hfold : forall l acc,
            foldl (fun acc item => if search_match u k1 item then acc ++ [item] else acc)
                  acc l =
            foldl (fun acc item => if search_match u k2 item then acc ++ [item] else acc)
                  acc l).
  { induction l as [|x l IH]; intros acc; [reflexivity|].
    cbn [foldl]. rewrite (search_match_key u k1 k2 x Hf He). apply IH. }
  unfold search. now rewrite He, Hfold.
Qed.

Lemma search_key_case_witness :
  search ascii_case "Fish" (mkModel [files_item 0] [] NormalMode 1 []) =
  search ascii_case "fISH" (mkModel [files_item 0] [] NormalMode 1 []).
Proof.
  apply (search_key_case ascii_case "Fish" "fISH").
  - exact ascii_case_folds.
  - apply (bool_decide_unpack _). vm_compute. exact I.
  - apply (bool_decide_unpack _). vm_compute. exact I.
  - repeat (constructor;
            [first [ left; reflexivity
                   | right; left; apply (bool_decide_unpack _); vm_compute; exact I
                   | right; right; apply (bool_decide_unpack _); vm_compute; exact I ]|]).
    constructor.
Defined.

Lemma List_filter_all {A} (f : A -> bool) (l : list A) :
  (forall x, f x = true) -> List.filter f l = l.
Proof.
  intros Hf. induction l as [|x l IH]; simpl; [reflexivity|].
  now rewrite Hf, IH.
Qed.

Lemma m_items_search u key m : m_items (search u key m) = m_items m.
Proof. unfold search. now rewrite m_items_emit. Qed.

(** X13. Each search filters the store anew: a search after a search shows
    what it would show on its own (searches do not narrow one another), and
    every search, the one that clears the key included, rebuilds the overlay
    (with the whole store for the empty key) and announces one layout change
    with its count change. *)
Theorem search_after_search (u : CaseFolding) (k1 k2 : string) (m : LauncherModel) :
  rows (search u k2 (search u k1 m)) = rows (search u k2 m) /\
  m_searchItems (search u k2 (search u k1 m)) = m_searchItems (search u k2 m) /\
  m_mode (search u k2 (search u k1 m)) = m_mode (search u k2 m) /\
  m_searchItems (search u EmptyString m) = m_items m /\
  effects (search u k2 m) = effects m ++ [Emit layoutChanged; Emit countChanged].
Proof.
  assert (Hs : m_searchItems (search u k2 (search u k1 m)) =
               m_searchItems (search u k2 m))
    by (rewrite !search_found; now rewrite m_items_search).
  assert (Hm : m_mode (search u k2 (search u k1 m)) = m_mode (search u k2 m))
    by (unfold search; now rewrite !m_mode_emit).
  split; [|split; [exact Hs|split; [exact Hm|split]]].
  - unfold rows. now rewrite Hm, Hs, !m_items_search.
  - rewrite search_found. apply List_filter_all. intros x.
    unfold search_match. now rewrite contains_empty_key.
  - unfold search, emit, with_effect. cbn. now rewrite <- app_assoc.
Qed.

(** ** The overlay under store changes *)

Lemma addApp_overlay e fileName m :
  m_searchItems (addApp e fileName m) = m_searchItems m /\
  m_mode (addApp e fileName m) = m_mode m.
Proof.
  unfold addApp. repeat case_match; auto.
Qed.

Lemma removeApp_overlay item m :
  m_searchItems (removeApp item m) = m_searchItems m /\
  m_mode (removeApp item m) = m_mode m /\
  next_addr (removeApp item m) = next_addr m.
Proof.
  unfold removeApp. case_match; [auto|].
  unfold emit, with_effect, with_items. cbn. auto.
Qed.

Lemma refreshed_overlay m :
  m_searchItems (refreshed m) = m_searchItems m /\
  m_mode (refreshed m) = m_mode m /\
  next_addr (refreshed m) = next_addr m.
Proof. unfold refreshed, on_refreshed, emit, with_effect, with_items. cbn. auto. Qed.

(** X14. Only [search] writes the overlay: [addApp], [removeApp] and the
    sort on refresh leave the overlay and the mode as they are, so in search
    mode the rows of the view are the same after any of them; an item taken
    out of the store stays in the rows until the next search. *)
Theorem dispatch_keeps_overlay (e : Env) (c : Invocation) (m : LauncherModel) :
  m_searchItems (dispatch e c m) = m_searchItems m /\
  m_mode (dispatch e c m) = m_mode m /\
  (m_mode m = SearchMode -> rows (dispatch e c m) = rows m).
Proof.
  assert (H : m_searchItems (dispatch e c m) = m_searchItems m /\
              m_mode (dispatch e c m) = m_mode m).
  { destruct c as [fileName|item|]; simpl.
    - apply addApp_overlay.
    - destruct (removeApp_overlay item m) as (? & ? & _). auto.
    - destruct (refreshed_overlay m) as (? & ? & _). auto. }
  destruct H as [Hs Hm]. split; [exact Hs|]. split; [exact Hm|].
  intros Hmode. unfold rows. now rewrite Hm, Hmode, Hs.
Qed.

Example removed_item_still_shown :
  let m := search ascii_case "files" (mkModel [files_item 0] [] NormalMode 1 []) in
  m_items (removeApp (files_item 0) m) = [] /\
  rows (removeApp (files_item 0) m) = [files_item 0].
Proof. split; vm_compute; reflexivity. Qed.

(** ** Pointers *)

Lemma launch_next_addr sd path m r m' :
  launch sd path m = Some (r, m') -> next_addr m' = next_addr m.
Proof.
  unfold launch. repeat case_match; try discriminate; intros [= <- <-];
    unfold emit, with_effect; reflexivity.
Qed.

Lemma step_next_addr o m m' :
  step o m = Some m' ->
  (exists e fileName, m' = addApp e fileName m) \/ next_addr m' = next_addr m.
Proof.
  destruct o as [e [fileName|item|]|key|from to page pageCount|sd path|key|desktop|];
    simpl; intros Hstep.
  - left. injection Hstep as <-. eauto.
  - right. injection Hstep as <-. apply removeApp_overlay.
  - right. injection Hstep as <-. apply refreshed_overlay.
  - right. now injection Hstep as <-.
  - right. unfold move in Hstep. destruct (from =? to); [now injection Hstep as <-|].
    destruct (QList_move _ _ _); [|discriminate]. now injection Hstep as <-.
  - right. destruct (launch sd path m) as [[r m'']|] eqn:Hl; [|discriminate].
    simpl in Hstep. injection Hstep as <-. eapply launch_next_addr, Hl.
  - right. injection Hstep as <-. unfold sendToDock. now case_match.
  - right. injection Hstep as <-. unfold removeFromDock. now case_match.
  - right. now injection Hstep as <-.
Qed.

Lemma distinct_pointers_addApp e fileName m :
  distinct_pointers m -> distinct_pointers (addApp e fileName m).
Proof.
  intros [Hnd Hlt].
  destruct (addApp_cases e fileName m) as [->|(_ & item & Hitems & _)];
    [split; assumption|].
  assert (Hacc : accepted e fileName m).
  { apply addApp_changed. rewrite Hitems. intros Habs.
    apply (f_equal length) in Habs. rewrite length_app in Habs. simpl in Habs. lia. }
  rewrite (addApp_accepted e fileName m Hacc). unfold distinct_pointers.
  cbn [m_items next_addr]. split.
  - rewrite fmap_app. apply NoDup_app. split; [assumption|]. split.
    + intros a Ha ->%list_elem_of_singleton.
      apply list_elem_of_fmap in Ha as (x & Hx & Hin).
      rewrite Forall_forall in Hlt. specialize (Hlt _ Hin). simpl in Hx. lia.
    + apply NoDup_singleton.
  - apply Forall_app. split.
    + eapply Forall_impl; [exact Hlt|]. intros x Hx. simpl in Hx. lia.
    + repeat constructor.
Qed.

Lemma distinct_pointers_sub m m' :
  m_items m' ⊆+ m_items m -> next_addr m' = next_addr m ->
  distinct_pointers m -> distinct_pointers m'.
Proof.
  intros Hsub Hn [Hnd Hlt]. split.
  - eapply submseteq_NoDup; [|exact Hnd]. now rewrite Hsub.
  - rewrite Hn. eapply submseteq_Forall; eassumption.
Qed.

Lemma step_distinct_pointers o m m' :
  distinct_pointers m -> step o m = Some m' -> distinct_pointers m'.
Proof.
  intros Hm Hstep.
  destruct (step_next_addr _ _ _ Hstep) as [(e & f & ->)|Hn];
    [now apply distinct_pointers_addApp|].
  destruct (step_items _ _ _ Hstep) as [(e & f & ->)|Hsub];
    [now apply distinct_pointers_addApp|].
  eapply distinct_pointers_sub; eassumption.
Qed.

(** X16. In every model that a run of operations produces from a new
    model, the store holds no item pointer twice, and the next item to be
    built gets a pointer that no store item has. *)
Theorem run_distinct_pointers (ops : list Op) (m : LauncherModel) :
  run ops LauncherModel_new = Some m ->
  NoDup (addr <$> m_items m) /\
  Forall (fun it => (addr it < next_addr m)%nat) (m_items m).
Proof.
  assert (H : forall ops m0, distinct_pointers m0 ->
                             run ops m0 = Some m -> distinct_pointers m).
  { clear ops. induction ops as [|o ops IH]; intros m0 Hm0; simpl.
    - now intros [= <-].
    - destruct (step o m0) as [m1|] eqn:Hstep; [|discriminate].
      apply IH. eapply step_distinct_pointers; eassumption. }
  apply H. split; constructor.
Qed.

Lemma run_distinct_pointers_witness :
  let e := mkEnv "Cutefish" "en_US" (fun _ => files_entry) in
  NoDup (addr <$> m_items (addApp e "/b.desktop" (addApp e "/a.desktop" LauncherModel_new))).
Proof.
  intros e.
  refine (proj1 (run_distinct_pointers
                   [OpDispatch e (InvokeAddApp "/a.desktop");
                    OpDispatch e (InvokeAddApp "/b.desktop")] _ eq_refl)).
Defined.

Lemma NoDup_fmap_eq {A B} (f : A -> B) (l : list A) x y :
  NoDup (f <$> l) -> x ∈ l -> y ∈ l -> f x = f y -> x = y.
Proof.
  induction l as [|z l IH]; intros Hnd Hx Hy Hf; [now apply elem_of_nil in Hx|].
  rewrite fmap_cons in Hnd. apply NoDup_cons in Hnd as [Hz Hnd].
  apply elem_of_cons in Hx as [->|Hx]; apply elem_of_cons in Hy as [->|Hy].
  - reflexivity.
  - exfalso. apply Hz. rewrite Hf. now apply list_elem_of_fmap_2.
  - exfalso. apply Hz. rewrite <- Hf. now apply list_elem_of_fmap_2.
  - now apply IH.
Qed.

(** The first store entry with the pointer of [item], if any. *)
Lemma pointer_split (items : list LauncherItem) item :
  Forall (fun x => addr x <> addr item) items \/
  exists pre it post,
    items = pre ++ it :: post /\
    Forall (fun x => addr x <> addr item) pre /\ addr it = addr item.
Proof.
  induction items as [|x l IH]; [left; constructor|].
  destruct (decide (addr x = addr item)) as [Heq|Hne].
  - right. exists [], x, l. split; [reflexivity|]. split; [constructor | exact Heq].
  - destruct IH as [Hall|(pre & it & post & -> & Hpre & Hit)].
    + left. now constructor.
    + right. exists (x :: pre), it, post.
      split; [reflexivity|]. split; [now constructor | exact Hit].
Qed.

Lemma removeApp_elem item m x :
  NoDup (addr <$> m_items m) ->
  x ∈ m_items (removeApp item m) <-> x ∈ m_items m /\ addr x <> addr item.
Proof.
  intros Hnd.
  destruct (pointer_split (m_items m) item) as [Hall|(pre & it & post & Hl & Hpre & Hit)].
  - unfold removeApp, indexOf. rewrite (indexOf_from_absent 0 _ _ Hall). simpl.
    rewrite Forall_forall in Hall. split; [intros Hx; split; auto | tauto].
  - rewrite (removeApp_split item m pre it post Hl Hpre Hit). cbn [m_items].
    rewrite Hl in *. rewrite fmap_app, fmap_cons in Hnd.
    apply NoDup_app in Hnd as (_ & Hcross & Hnd).
    apply NoDup_cons in Hnd as [Hit' _].
    rewrite Forall_forall in Hpre.
    rewrite !elem_of_app, elem_of_cons. split.
    + intros [Hx|Hx].
      * split; [auto|]. now apply Hpre.
      * split; [auto|]. intros Heq. apply Hit'. rewrite Hit, <- Heq.
        now apply list_elem_of_fmap_2.
    + intros [[Hx|[->|Hx]] Hne]; auto. contradiction.
Qed.

(** X17. On a store without a repeated pointer and without a repeated id,
    removing a store item makes its id unknown to [findById], and every
    other item stays in the store. *)
Theorem removeApp_then_findById (item : LauncherItem) (m : LauncherModel) :
  NoDup (addr <$> m_items m) ->
  NoDup (ids m) ->
  item ∈ m_items m ->
  findById (removeApp item m) (id item) = -1 /\
  (forall x, x ∈ m_items m -> x <> item -> x ∈ m_items (removeApp item m)).
Proof.
  intros Hnd Hids Hin. split.
  - apply findById_absent. unfold ids. intros Habs.
    apply list_elem_of_fmap in Habs as (x & Hid & Hx).
    apply (removeApp_elem item m x Hnd) in Hx as [Hx Hne].
    apply Hne. f_equal.
    eapply (NoDup_fmap_eq id); [exact Hids | exact Hx | exact Hin | now symmetry].
  - intros x Hx Hne. apply (removeApp_elem item m x Hnd). split; [exact Hx|].
    intros Heq. apply Hne.
    eapply (NoDup_fmap_eq addr); [exact Hnd | exact Hx | exact Hin | exact Heq].
Qed.

Lemma removeApp_then_findById_witness :
  let a := mkItem 0 "/a.desktop" "A" "" "" "" ["a"] in
  let b := mkItem 1 "/b.desktop" "B" "" "" "" ["b"] in
  let m := mkModel [a; b] [] NormalMode 2 [] in
  findById (removeApp a m) "/a.desktop" = -1.
Proof.
  intros a b m.
  refine (proj1 (removeApp_then_findById a m _ _ _)).
  - apply (bool_decide_unpack _). vm_compute. exact I.
  - apply (bool_decide_unpack _). vm_compute. exact I.
  - apply list_elem_of_here.
Defined.

(** ** A refresh, from the scan to the sorted store *)

Lemma dispatch_all_app e q1 q2 m :
  dispatch_all e (q1 ++ q2) m = dispatch_all e q2 (dispatch_all e q1 m).
Proof. unfold dispatch_all. apply foldl_app. Qed.

Lemma dispatch_all_adds e fs m :
  dispatch_all e (InvokeAddApp <$> fs) m = foldl (fun m f => addApp e f m) m fs.
Proof.
  unfold dispatch_all. revert m; induction fs as [|f fs IH]; intros m; simpl;
    [reflexivity | apply IH].
Qed.

Lemma dispatch_all_removes e rs m :
  dispatch_all e (InvokeRemoveApp <$> rs) m = foldl (fun m it => removeApp it m) m rs.
Proof.
  unfold dispatch_all. revert m; induction rs as [|r rs IH]; intros m; simpl;
    [reflexivity | apply IH].
Qed.

Lemma run_dispatch e q m : run (OpDispatch e <$> q) m = Some (dispatch_all e q m).
Proof.
  unfold dispatch_all. revert m; induction q as [|c q IH]; intros m; simpl;
    [reflexivity | apply IH].
Qed.

Lemma adds_result e (S : string -> Prop) fs m :
  Forall S fs -> distinct_pointers m ->
  exists new,
    m_items (foldl (fun m f => addApp e f m) m fs) = m_items m ++ new /\
    Forall (fun it => S (id it)) new /\
    distinct_pointers (foldl (fun m f => addApp e f m) m fs).
Proof.
  intros Hfs; revert m; induction Hfs as [|f fs Hf _ IH]; intros m Hm; simpl.
  - exists []. rewrite app_nil_r. repeat split; [constructor | apply Hm | apply Hm].
  - destruct (IH (addApp e f m) (distinct_pointers_addApp e f m Hm))
      as (new & Hitems & Hnew & Hdp).
    destruct (addApp_cases e f m) as [Heq|(_ & item & Hadd & Hid & _)].
    + exists new. rewrite Heq in *. auto.
    + exists (item :: new). rewrite Hitems, Hadd, <- app_assoc.
      split; [reflexivity|]. split; [|exact Hdp].
      constructor; [now rewrite Hid | exact Hnew].
Qed.

Lemma removeApp_NoDup_addr item m :
  NoDup (addr <$> m_items m) -> NoDup (addr <$> m_items (removeApp item m)).
Proof.
  intros Hnd. destruct (removeApp_items item m) as [->|[i ->]]; [assumption|].
  eapply submseteq_NoDup; [|exact Hnd]. apply fmap_submseteq, submseteq_delete.
Qed.

Lemma removes_elem rs m x :
  NoDup (addr <$> m_items m) ->
  x ∈ m_items (foldl (fun m it => removeApp it m) m rs) <->
  x ∈ m_items m /\ addr x ∉ (addr <$> rs).
Proof.
  revert m; induction rs as [|r rs IH]; intros m Hnd; simpl.
  - split; [intros Hx; split; [exact Hx | apply not_elem_of_nil] | tauto].
  - rewrite (IH _ (removeApp_NoDup_addr r m Hnd)), (removeApp_elem r m x Hnd).
    rewrite not_elem_of_cons. tauto.
Qed.

(** X18. A refresh carried through on a model that is otherwise left
    alone (the posted adds, removes and the completion run in posting order
    on the state the scan read, the store holding no pointer twice): every
    id of the resulting store is a path that was on disk; the store items
    that were on disk are all still there and those that were not are all
    gone; adjacent names are in ascending order; distinct ids stay
    distinct; and a second scan of the same disk posts no remove. *)
Theorem refresh_dispatched (e : Env) (d : Disk) (m : LauncherModel) :
  distinct_pointers m ->
  let m' := dispatch_all e (refresh d m) m in
  (forall it, it ∈ m_items m' -> id it ∈ scan_entries d) /\
  (forall it, it ∈ m_items m -> id it ∈ scan_entries d -> it ∈ m_items m') /\
  (forall it, it ∈ m_items m -> id it ∉ scan_entries d -> it ∉ m_items m') /\
  (forall i a b,
     m_items m' !! i = Some a -> m_items m' !! S i = Some b ->
     String.leb (name a) (name b) = true) /\
  (NoDup (ids m) -> NoDup (ids m')) /\
  (forall it, InvokeRemoveApp it ∉ refresh d m').
Proof.
  intros Hdp m'.
  set (adds := filter (fun f => f ∉ ids m) (scan_entries d)).
  set (removes := filter (fun it => id it ∉ scan_entries d) (m_items m)).
  set (m1 := foldl (fun m f => addApp e f m) m adds).
  set (m2 := foldl (fun m it => removeApp it m) m1 removes).
  assert (Hm' : m' = refreshed m2).
  { unfold m'. rewrite refresh_queue. fold adds removes.
    rewrite !dispatch_all_app, dispatch_all_adds, dispatch_all_removes.
    reflexivity. }
  destruct (adds_result e (fun f => f ∈ scan_entries d) adds m) as (new & Hm1 & Hnew & Hdp1).
  { apply Forall_forall. intros f Hf. unfold adds in Hf.
    now apply list_elem_of_filter in Hf as [_ ?]. }
  { exact Hdp. }
  fold m1 in Hm1, Hdp1.
  assert (Helem : forall x, x ∈ m_items m' <->
                            (x ∈ m_items m \/ x ∈ new) /\ addr x ∉ (addr <$> removes)).
  { intros x. rewrite Hm', refreshed_items, (std_sort_perm name_less (m_items m2)).
    unfold m2. rewrite (removes_elem removes m1 x (proj1 Hdp1)), Hm1, elem_of_app.
    reflexivity. }
  assert (Hdisk : forall it, it ∈ m_items m' -> id it ∈ scan_entries d).
  { intros it [[Hold|Hn] Hkeep]%Helem.
    - destruct (decide (id it ∈ scan_entries d)) as [|Hgone]; [assumption|].
      exfalso. apply Hkeep. apply list_elem_of_fmap_2.
      unfold removes. apply list_elem_of_filter. auto.
    - rewrite Forall_forall in Hnew. now apply Hnew. }
  split; [exact Hdisk|]. split; [|split; [|split; [|split]]].
  - intros it Hit Hon. apply Helem. split; [now left|].
    intros Habs. apply list_elem_of_fmap in Habs as (r & Haddr & Hr).
    unfold removes in Hr. apply list_elem_of_filter in Hr as [Hgone Hr].
    assert (it = r) as ->; [|contradiction].
    eapply (NoDup_fmap_eq addr); [exact (proj1 Hdp) | exact Hit | exact Hr | exact Haddr].
  - intros it Hit Hgone [_ Hkeep]%Helem. apply Hkeep.
    apply list_elem_of_fmap_2. unfold removes. apply list_elem_of_filter. auto.
  - intros i a b Ha Hb. rewrite Hm', refreshed_items in Ha, Hb.
    apply not_after_name_leb.
    eapply Sorted_adjacent; [|exact Ha|exact Hb].
    apply std_sort_sorted, name_less_asym.
  - intros Hids.
    apply (run_preserves unique_ids unique_ids_sub unique_ids_addApp
             (OpDispatch e <$> refresh d m) m m' Hids).
    apply run_dispatch.
  - intros it Habs. rewrite refresh_queue in Habs.
    rewrite !elem_of_app, !list_elem_of_fmap in Habs.
    destruct Habs as [(x & [=] & _)|[(x & [= ->] & Hx)|Hx]].
    + apply list_elem_of_filter in Hx as [Hgone Hx]. apply Hgone, Hdisk, Hx.
    + apply list_elem_of_singleton in Hx. discriminate.
Qed.

Lemma sample_store_distinct : distinct_pointers sample_store.
Proof.
  split.
  - apply (bool_decide_unpack _). vm_compute. exact I.
  - repeat constructor; simpl; lia.
Defined.

Lemma refresh_dispatched_witness :
  let e := mkEnv "Cutefish" "en_US" (fun _ => files_entry) in
  Forall (fun it => id it ∈ scan_entries sample_disk)
         (m_items (dispatch_all e (refresh sample_disk sample_store) sample_store)).
Proof.
  intros e. apply Forall_forall.
  exact (proj1 (refresh_dispatched e sample_disk sample_store sample_store_distinct)).
Defined.

Example refresh_dispatched_example :
  let e := mkEnv "Cutefish" "en_US" (fun _ => files_entry) in
  id <$> m_items (dispatch_all e (refresh sample_disk sample_store) sample_store) =
  ["/b.desktop"; "/a.desktop"].
Proof. vm_compute. reflexivity. Qed.

(** ** Launch on the models the code builds *)

(** X19. On every model that a run of operations produces from a new
    model, [launch] returns (no store item lacks a first launch argument),
    it leaves the store as it is, and for an id that no store item has it
    answers false and changes nothing. *)
Theorem launch_always_returns (ops : list Op) (m : LauncherModel)
    (sd : QProcess -> bool) (path : string) :
  run ops LauncherModel_new = Some m ->
  exists r m',
    launch sd path m = Some (r, m') /\
    m_items m' = m_items m /\
    (path ∉ ids m -> r = false /\ m' = m).
Proof.
  intros Hrun. destruct (launch_returns ops m sd path Hrun) as [[r m'] Hl].
  exists r, m'. split; [exact Hl|]. split; [eapply launch_items, Hl|].
  intros Habs. apply findById_absent in Habs.
  unfold launch in Hl. rewrite Habs in Hl. simpl in Hl.
  now injection Hl as <- <-.
Qed.

Lemma launch_always_returns_witness :
  let e := mkEnv "Cutefish" "en_US" (fun _ => files_entry) in
  exists r m',
    launch (fun _ => true) files_desktop (addApp e files_desktop LauncherModel_new) =
      Some (r, m') /\
    m_items m' = m_items (addApp e files_desktop LauncherModel_new) /\
    (files_desktop ∉ ids (addApp e files_desktop LauncherModel_new) ->
     r = false /\ m' = addApp e files_desktop LauncherModel_new).
Proof.
  intros e.
  apply (launch_always_returns [OpDispatch e (InvokeAddApp files_desktop)]
           (addApp e files_desktop LauncherModel_new)).
  reflexivity.
Defined.

(** ** Flags *)

Lemma toLower_zero_char c : QChar.toLower c = "0"%char -> c = "0"%char.
Proof. destruct c as [[] [] [] [] [] [] [] []]; vm_compute; congruence. Qed.

Lemma toLower_zero s : QString.toLower s = "0" <-> s = "0".
Proof.
  split; [|now intros ->].
  destruct s as [|c [|c' s]]; try discriminate.
  unfold QString.toLower. simpl. intros [= H]. now rewrite (toLower_zero_char c H).
Qed.

(** ** The ids of the store after a refresh *)

Lemma accepted_entry_shown e fileName m :
  accepted e fileName m <-> findById m fileName = -1 /\ entry_shown e fileName.
Proof. unfold accepted, entry_shown. tauto. Qed.

Lemma addApp_grows e fileName m :
  addApp e fileName m = m \/
  (accepted e fileName m /\
   exists item,
     m_items (addApp e fileName m) = m_items m ++ [item] /\
     id item = fileName /\ addr item = next_addr m /\
     next_addr (addApp e fileName m) = S (next_addr m)).
Proof.
  destruct (addApp_cases e fileName m) as [Heq|(_ & item & Hitems & _)];
    [now left|right].
  assert (Hacc : accepted e fileName m).
  { apply addApp_changed. rewrite Hitems. intros Habs.
    apply (f_equal length) in Habs. rewrite length_app in Habs. simpl in Habs. lia. }
  split; [exact Hacc|]. rewrite (addApp_accepted e fileName m Hacc).
  eexists. cbn [m_items next_addr]. split; [reflexivity|]. cbn. auto.
Qed.

Lemma adds_result_shown e fs m :
  exists new,
    m_items (foldl (fun m f => addApp e f m) m fs) = m_items m ++ new /\
    Forall (fun it => id it ∈ fs /\ entry_shown e (id it) /\
                      (next_addr m <= addr it)%nat) new /\
    (forall f, f ∈ fs -> entry_shown e f ->
               f ∈ ids (foldl (fun m f => addApp e f m) m fs)).
Proof.
  revert m; induction fs as [|f fs IH]; intros m; simpl.
  - exists []. rewrite app_nil_r. split; [reflexivity|]. split; [constructor|].
    intros f Hf. now apply elem_of_nil in Hf.
  - destruct (IH (addApp e f m)) as (new & Hitems & Hnew & Hall).
    destruct (addApp_grows e f m) as [Heq|(Hacc & item & Hadd & Hid & Haddr & Hnext)].
    + exists new. rewrite Heq in *. split; [exact Hitems|]. split.
      * eapply Forall_impl; [exact Hnew|]. intros x (? & ? & ?).
        split; [now apply list_elem_of_further | auto].
      * intros g [Hgf|Hg]%elem_of_cons Hshown; [subst g|now apply Hall].
        unfold ids. rewrite Hitems, fmap_app. apply elem_of_app; left.
        destruct (decide (f ∈ id <$> m_items m)) as [|Hn]; [assumption|].
        exfalso. apply findById_absent in Hn.
        assert (Hacc : accepted e f m) by (apply accepted_entry_shown; auto).
        pose proof (addApp_accepted e f m Hacc) as Hmodel. cbv zeta in Hmodel.
        rewrite Heq in Hmodel. apply (f_equal m_items) in Hmodel.
        cbn [m_items] in Hmodel. apply (f_equal length) in Hmodel.
        rewrite length_app in Hmodel. simpl in Hmodel. lia.
    + exists (item :: new). rewrite Hitems, Hadd, <- app_assoc.
      split; [reflexivity|]. split.
      * constructor.
        -- rewrite Hid, Haddr. split; [apply list_elem_of_here|].
           split; [now apply accepted_entry_shown in Hacc as [_ ?] | lia].
        -- eapply Forall_impl; [exact Hnew|]. intros x (? & ? & ?).
           split; [now apply list_elem_of_further|]. split; [assumption | lia].
      * intros g [Hgf|Hg]%elem_of_cons Hshown; [subst g|now apply Hall].
        unfold ids. rewrite Hitems, Hadd, <- app_assoc, !fmap_app.
        apply elem_of_app; right. simpl. rewrite Hid. apply list_elem_of_here.
Qed.

Lemma refresh_dispatched_store e d m :
  m_items (dispatch_all e (refresh d m) m) ≡ₚ
  m_items (foldl (fun m it => removeApp it m)
             (foldl (fun m f => addApp e f m) m
                (filter (fun f => f ∉ ids m) (scan_entries d)))
             (filter (fun it => id it ∉ scan_entries d) (m_items m))).
Proof.
  rewrite refresh_queue.
  rewrite !dispatch_all_app, dispatch_all_adds, dispatch_all_removes.
  change (dispatch_all e [InvokeRefreshed] ?x) with (refreshed x).
  rewrite refreshed_items. apply std_sort_perm.
Qed.

(** X21. The ids of the store after a refresh carried through on a model
    that is otherwise left alone: exactly the on-disk paths that were
    already in the store or whose entry passes the filter of [addApp]
    (Terminal, OnlyShowIn, NoDisplay, Hidden). *)
Theorem refresh_dispatched_ids (e : Env) (d : Disk) (m : LauncherModel) :
  distinct_pointers m ->
  forall f,
    f ∈ ids (dispatch_all e (refresh d m) m) <->
    f ∈ scan_entries d /\ (f ∈ ids m \/ entry_shown e f).
Proof.
  intros [Hnd Hlt] f.
  set (adds := filter (fun f => f ∉ ids m) (scan_entries d)).
  set (removes := filter (fun it => id it ∉ scan_entries d) (m_items m)).
  set (m1 := foldl (fun m f => addApp e f m) m adds).
  destruct (adds_result_shown e adds m) as (new & Hm1 & Hnew & Hall).
  fold m1 in Hm1, Hall.
  assert (Hdp1 : NoDup (addr <$> m_items m1)).
  { rewrite Hm1, fmap_app. apply NoDup_app. split; [exact Hnd|]. split.
    - intros a Ha Ha'. apply list_elem_of_fmap in Ha as (x & -> & Hx).
      apply list_elem_of_fmap in Ha' as (y & Hxy & Hy).
      rewrite Forall_forall in Hlt, Hnew.
      specialize (Hlt _ Hx). destruct (Hnew _ Hy) as (_ & _ & Hge). lia.
    - assert (Hq : distinct_pointers m1).
      { destruct (adds_result e (fun _ => True) adds m) as (new' & _ & _ & Hq).
        - apply Forall_forall. auto.
        - split; assumption.
        - exact Hq. }
      destruct Hq as [Hq _]. fold m1 in Hq. rewrite Hm1, fmap_app in Hq.
      now apply NoDup_app in Hq as (_ & _ & ?). }
  assert (Helem : forall x, x ∈ m_items (dispatch_all e (refresh d m) m) <->
                            (x ∈ m_items m \/ x ∈ new) /\ addr x ∉ (addr <$> removes)).
  { intros x. rewrite refresh_dispatched_store. fold adds removes m1.
    rewrite (removes_elem removes m1 x Hdp1), Hm1, elem_of_app. reflexivity. }
  assert (Hold : forall r, r ∈ removes -> r ∈ m_items m /\ id r ∉ scan_entries d).
  { intros r Hr. unfold removes in Hr. apply list_elem_of_filter in Hr. tauto. }
  rewrite Forall_forall in Hnew, Hlt.
  unfold ids at 1. rewrite list_elem_of_fmap. split.
  - intros (it & -> & [[Hit|Hit] Hkeep]%Helem).
    + destruct (decide (id it ∈ scan_entries d)) as [Hon|Hgone].
      * split; [exact Hon|]. left. now apply list_elem_of_fmap_2.
      * exfalso. apply Hkeep, list_elem_of_fmap_2.
        unfold removes. apply list_elem_of_filter. auto.
    + destruct (Hnew _ Hit) as (Hadds & Hshown & _).
      unfold adds in Hadds. apply list_elem_of_filter in Hadds as [_ Hon]. auto.
  - intros [Hon [Hin|Hshown]].
    + apply list_elem_of_fmap in Hin as (it & -> & Hit).
      exists it. split; [reflexivity|]. apply Helem. split; [now left|].
      intros Habs. apply list_elem_of_fmap in Habs as (r & Haddr & Hr).
      destruct (Hold _ Hr) as [Hr' Hgone].
      assert (it = r) as ->; [|contradiction].
      eapply (NoDup_fmap_eq addr); [exact Hnd | exact Hit | exact Hr' | exact Haddr].
    + destruct (decide (f ∈ ids m)) as [Hin|Hnin].
      * apply list_elem_of_fmap in Hin as (it & -> & Hit).
        exists it. split; [reflexivity|]. apply Helem. split; [now left|].
        intros Habs. apply list_elem_of_fmap in Habs as (r & Haddr & Hr).
        destruct (Hold _ Hr) as [Hr' Hgone].
        assert (it = r) as ->; [|contradiction].
        eapply (NoDup_fmap_eq addr); [exact Hnd | exact Hit | exact Hr' | exact Haddr].
      * assert (Hf : f ∈ adds) by (unfold adds; apply list_elem_of_filter; auto).
        specialize (Hall f Hf Hshown). unfold ids in Hall.
        rewrite Hm1, fmap_app in Hall. apply elem_of_app in Hall as [Hin|Hin];
          [contradiction|].
        apply list_elem_of_fmap in Hin as (it & -> & Hit).
        exists it. split; [reflexivity|]. apply Helem. split; [now right|].
        intros Habs. apply list_elem_of_fmap in Habs as (r & Haddr & Hr).
        destruct (Hold _ Hr) as [Hr' _]. specialize (Hlt _ Hr').
        destruct (Hnew _ Hit) as (_ & _ & Hge). lia.
Qed.

Lemma refresh_dispatched_ids_witness :
  let e := mkEnv "Cutefish" "en_US" (fun _ => files_entry) in
  "/a.desktop" ∈ ids (dispatch_all e (refresh sample_disk sample_store) sample_store).
Proof.
  intros e.
  apply (refresh_dispatched_ids e sample_disk sample_store sample_store_distinct).
  split.
  - apply (bool_decide_unpack _). vm_compute. exact I.
  - right. repeat split; try (vm_compute; reflexivity).
    intros H. vm_compute in H. discriminate.
Defined.

(** ** The view interface and deferred deletion *)

Ltac deferred_frame :=
  unfold deferred, emit, with_effect, with_items; cbn;
  rewrite ?omap_app; cbn; rewrite ?app_nil_r; reflexivity.

Lemma deferred_addApp e fileName m : deferred (addApp e fileName m) = deferred m.
Proof.
  destruct (addApp_grows e fileName m) as [->|(Hacc & _)]; [reflexivity|].
  rewrite (addApp_accepted e fileName m Hacc). deferred_frame.
Qed.

Lemma removeApp_unknown item m :
  Forall (fun x => addr x <> addr item) (m_items m) -> removeApp item m = m.
Proof.
  intros Habs. unfold removeApp, indexOf.
  now rewrite (indexOf_from_absent 0 _ _ Habs).
Qed.

Lemma deferred_refreshed m : deferred (refreshed m) = deferred m.
Proof. unfold refreshed, on_refreshed. deferred_frame. Qed.

Lemma deferred_launch sd path m r m' :
  launch sd path m = Some (r, m') -> deferred m' = deferred m.
Proof.
  unfold launch. repeat case_match; try discriminate; intros [= <- <-];
    deferred_frame.
Qed.

Lemma step_deferred o m m' :
  step o m = Some m' ->
  (exists e fileName, m' = addApp e fileName m) \/
  (exists item, m' = removeApp item m) \/
  deferred m' = deferred m.
Proof.
  destruct o as [e [fileName|item|]|u key|from to page pageCount|sd path|key|desktop|];
    simpl; intros Hstep.
  - left. injection Hstep as <-. eauto.
  - right; left. injection Hstep as <-. eauto.
  - right; right. injection Hstep as <-. apply deferred_refreshed.
  - right; right. injection Hstep as <-. unfold search. deferred_frame.
  - right; right. unfold move in Hstep.
    destruct (from =? to); [now injection Hstep as <-|].
    destruct (QList_move _ _ _); [|discriminate]. now injection Hstep as <-.
  - right; right. destruct (launch sd path m) as [[r m'']|] eqn:Hl; [|discriminate].
    simpl in Hstep. injection Hstep as <-. eapply deferred_launch, Hl.
  - right; right. injection Hstep as <-. unfold sendToDock.
    case_match; [deferred_frame | reflexivity].
  - right; right. injection Hstep as <-. unfold removeFromDock.
    case_match; [deferred_frame | reflexivity].
  - right; right. injection Hstep as <-. unfold save. deferred_frame.
Qed.

Lemma store_alive_addApp e fileName m :
  store_alive m -> store_alive (addApp e fileName m).
Proof.
  intros [Hlt Hstore]. unfold store_alive. rewrite deferred_addApp.
  destruct (addApp_grows e fileName m)
    as [->|(_ & item & Hitems & _ & Haddr & Hnext)]; [now split|].
  rewrite Hitems, Hnext. split.
  - eapply Forall_impl; [exact Hlt|]. intros a Ha. simpl in Ha. lia.
  - apply Forall_app. split; [exact Hstore|]. constructor; [|constructor].
    rewrite Haddr. intros Hin. rewrite Forall_forall in Hlt.
    specialize (Hlt _ Hin). simpl in Hlt. lia.
Qed.

Lemma store_alive_removeApp item m :
  distinct_pointers m -> store_alive m -> store_alive (removeApp item m).
Proof.
  intros [Hnd Hbelow] [Hlt Hstore].
  destruct (pointer_split (m_items m) item)
    as [Hall|(pre & it & post & Hl & Hpre & Hit)].
  - rewrite (removeApp_unknown item m Hall). now split.
  - rewrite (removeApp_split item m pre it post Hl Hpre Hit).
    unfold store_alive, deferred. cbn [effects m_items next_addr].
    rewrite omap_app. cbn. fold (deferred m).
    rewrite Hl in *. rewrite fmap_app, fmap_cons in Hnd.
    apply NoDup_app in Hnd as (_ & Hcross & Hnd).
    apply NoDup_cons in Hnd as [Hpost _].
    apply Forall_app in Hbelow as [_ Hbelow].
    apply Forall_cons in Hbelow as [Hbelow _].
    apply Forall_app in Hstore as [Hs1 Hs2]. apply Forall_cons in Hs2 as [_ Hs2].
    rewrite Forall_forall in Hpre, Hs1, Hs2.
    split.
    + apply Forall_app. split; [exact Hlt|]. constructor; [|constructor].
      rewrite <- Hit. exact Hbelow.
    + apply Forall_forall. intros x [Hx|Hx]%elem_of_app Hin;
        apply elem_of_app in Hin as [Hin|Hin%list_elem_of_singleton].
      * now apply (Hs1 x).
      * now apply (Hpre x).
      * now apply (Hs2 x).
      * apply Hpost. rewrite Hit, <- Hin. now apply list_elem_of_fmap_2.
Qed.

Lemma store_alive_frame m m' :
  m_items m' ⊆+ m_items m -> next_addr m' = next_addr m ->
  deferred m' = deferred m -> store_alive m -> store_alive m'.
Proof.
  intros Hsub Hn Hd [Hlt Hstore]. unfold store_alive. rewrite Hn, Hd.
  split; [exact Hlt|]. eapply submseteq_Forall; eassumption.
Qed.

Lemma step_store_alive o m m' :
  distinct_pointers m -> store_alive m -> step o m = Some m' -> store_alive m'.
Proof.
  intros Hdp Hm Hstep.
  destruct (step_deferred _ _ _ Hstep) as [(e & f & ->)|[(item & ->)|Hd]];
    [now apply store_alive_addApp | now apply store_alive_removeApp |].
  destruct (step_next_addr _ _ _ Hstep) as [(e & f & ->)|Hn];
    [now apply store_alive_addApp|].
  destruct (step_items _ _ _ Hstep) as [(e & f & ->)|Hsub];
    [now apply store_alive_addApp|].
  eapply store_alive_frame; eassumption.
Qed.

Lemma run_store_alive ops m :
  run ops LauncherModel_new = Some m -> store_alive m.
Proof.
  assert (H : forall ops m0, distinct_pointers m0 -> store_alive m0 ->
                             run ops m0 = Some m -> store_alive m).
  { clear ops. induction ops as [|o ops IH]; intros m0 Hdp Hm0; simpl.
    - now intros [= <-].
    - destruct (step o m0) as [m1|] eqn:Hstep; [|discriminate].
      apply IH.
      + eapply step_distinct_pointers; eassumption.
      + eapply step_store_alive; eassumption. }
  apply H; split; constructor.
Qed.

(** X15. [data] and [rowCount]: for an invalid index [data] answers the
    invalid variant. For a valid index it is defined exactly when the row
    is inside the rows of the view and the item of that row was not handed
    to [deleteLater], and it answers with the role value of that item. In
    normal mode, on every model that a run of operations produces, that is
    exactly on the rows 0 .. [count] - 1. (In search mode the overlay can
    keep the pointer of an item that [removeApp] has removed and handed to
    [deleteLater]: then the row counts but cannot be read.) *)
Theorem data_defined (m : LauncherModel) (index : QModelIndex) (role : Role) :
  (isValid index = false -> data m index role = Some Invalid) /\
  (isValid index = true ->
   (is_Some (data m index role) <->
    exists item, QList_at (rows m) (row index) = Some item /\
                 addr item ∉ deferred m)) /\
  (forall item,
     isValid index = true ->
     QList_at (rows m) (row index) = Some item ->
     addr item ∉ deferred m ->
     data m index role = Some (role_data item role)) /\
  (forall ops,
     run ops LauncherModel_new = Some m ->
     m_mode m = NormalMode ->
     isValid index = true ->
     (is_Some (data m index role) <-> 0 <= row index < count m)).
Proof.
  assert (Hread : forall item,
            isValid index = true ->
            QList_at (rows m) (row index) = Some item ->
            addr item ∉ deferred m ->
            data m index role = Some (role_data item role)).
  { intros item Hv Hitem Halive. rewrite (data_rows m index role Hv), Hitem.
    unfold awaits_deletion. now rewrite bool_decide_eq_false_2. }
  assert (Hdef : isValid index = true ->
            (is_Some (data m index role) <->
             exists item, QList_at (rows m) (row index) = Some item /\
                          addr item ∉ deferred m)).
  { intros Hv. split.
    - rewrite (data_rows m index role Hv).
      destruct (QList_at (rows m) (row index)) as [item|]; [|intros [? H]; discriminate H].
      unfold awaits_deletion. destruct (decide (addr item ∈ deferred m)) as [Hin|Hout].
      + rewrite bool_decide_eq_true_2 by exact Hin. intros [? H]; discriminate H.
      + intros _. eauto.
    - intros (item & Hitem & Halive). rewrite (Hread item Hv Hitem Halive). eauto. }
  split; [|split; [exact Hdef|split; [exact Hread|]]].
  - intros Hv. unfold data. now rewrite Hv.
  - intros ops Hrun Hmode Hv. rewrite (Hdef Hv).
    destruct (run_store_alive ops m Hrun) as [_ Hstore].
    unfold count. rewrite rowCount_rows. unfold rows. rewrite Hmode.
    unfold QList_at. destruct (Z.leb_spec 0 (row index)) as [Hr|Hr].
    + split.
      * intros (item & Hitem & _). apply lookup_lt_Some in Hitem. lia.
      * intros Hrange.
        destruct (lookup_lt_is_Some_2 (m_items m) (Z.to_nat (row index)))
          as [item Hitem]; [lia|].
        exists item. split; [exact Hitem|].
        rewrite Forall_forall in Hstore. apply Hstore.
        eapply list_elem_of_lookup_2, Hitem.
    + split; [intros (item & Hitem & _); discriminate Hitem | lia].
Qed.

Example data_of_removed_row :
  let m := removeApp (files_item 0)
             (search ascii_case "files" (mkModel [files_item 0] [] NormalMode 1 [])) in
  count m = 1 /\
  data m (mkIndex true 0) NameRole = None /\
  data (search ascii_case "files" (mkModel [files_item 0] [] NormalMode 1 []))
       (mkIndex true 0) NameRole = Some (QVString "Files").
Proof. repeat split; vm_compute; reflexivity. Qed.

(** ** The texts of the flags *)

Lemma flag_false_text (d : gmap string string) (key : string) :
  QVar.toBool (DesktopProperties.value d key) = false <-> reads_false d key.
Proof.
  unfold reads_false, DesktopProperties.value. destruct (d !! key) as [s|]; simpl;
    [|split; auto].
  rewrite negb_false_iff, !orb_true_iff, !String.eqb_eq, toLower_zero.
  assert (Hempty : QString.isEmpty (QString.toLower s) = true <-> s = EmptyString)
    by (destruct s; simpl; split; congruence).
  rewrite Hempty. split.
  - intros H. right. exists s. split; [reflexivity|]. tauto.
  - intros [Habs|(s' & [= <-] & H)]; [discriminate|]. tauto.
Qed.

(** X20. What [addApp] makes of the texts of the flags. An entry is left
    out as soon as Terminal, NoDisplay or Hidden holds a text that does not
    read as false, that is any text other than the empty one, 0 and false in
    any letter case (yes, no and off all hide the entry). An entry with a new
    id and without OnlyShowIn, whose three flags are absent or read as false,
    is added. *)
Theorem addApp_flag_texts (e : Env) (fileName : string) (m : LauncherModel) :
  (forall key,
     key ∈ ["Terminal"; "NoDisplay"; "Hidden"] ->
     ~ reads_false (entry_file e fileName) key ->
     addApp e fileName m = m) /\
  (fileName ∉ ids m ->
   entry_file e fileName !! "OnlyShowIn" = None ->
   reads_false (entry_file e fileName) "Terminal" ->
   reads_false (entry_file e fileName) "NoDisplay" ->
   reads_false (entry_file e fileName) "Hidden" ->
   exists item, m_items (addApp e fileName m) = m_items m ++ [item] /\
                id item = fileName).
Proof.
  split.
  - intros key Hkey Hflag.
    destruct (addApp_grows e fileName m) as [Heq|(Hacc & _)]; [exact Heq|].
    exfalso. apply Hflag, flag_false_text.
    destruct Hacc as (_ & Ht & _ & Hn & Hh).
    repeat (apply elem_of_cons in Hkey as [->|Hkey]; [assumption|]).
    now apply elem_of_nil in Hkey.
  - intros Hnew Honly Ht Hn Hh.
    assert (Hacc : accepted e fileName m).
    { split; [now apply findById_absent|].
      split; [now apply flag_false_text|].
      split; [|split; now apply flag_false_text].
      unfold DesktopProperties.contains. rewrite Honly. intros Habs.
      apply bool_decide_eq_true in Habs as [? Habs]. discriminate Habs. }
    rewrite (addApp_accepted e fileName m Hacc). eexists. cbn [m_items].
    split; reflexivity.
Qed.

Example addApp_flag_no :
  let e s := mkEnv "Cutefish" "en_US" (fun _ => <["NoDisplay" := s]> files_entry) in
  addApp (e "no") files_desktop LauncherModel_new = LauncherModel_new /\
  addApp (e "yes") files_desktop LauncherModel_new = LauncherModel_new /\
  length (m_items (addApp (e "FALSE") files_desktop LauncherModel_new)) = 1%nat /\
  length (m_items (addApp (e "0") files_desktop LauncherModel_new)) = 1%nat.
Proof. repeat split; vm_compute; reflexivity. Qed.
